(** * Deep transforms and the path algebra of [types/collections.d.ts]

    The source is type-level TypeScript: every exported alias is a function
    from types to types.  This development reifies the types those aliases
    range over as a [Shape] (terminal leaf, array, record with per-property
    [optional] / [readonly] flags) and embeds each alias as a function on
    shapes, conditional by conditional.

    Reading of the type language used throughout:

    - [X extends Function] holds for callable leaves only;
      [X extends Array<infer U>] for mutable arrays only;
      [X extends ReadonlyArray<infer U>] for both kinds of array;
      [X extends object] for arrays, records and callable leaves.
    - A homomorphic mapped type [{ [P in keyof T]: ... }] applied to a
      primitive is that primitive; applied to an array it is the array of the
      template taken at key [number]; applied to a callable it is the object
      type without properties; applied to a record it rewrites each property
      and keeps the modifiers it does not mention.
    - In the first part [T[P]] is the declared type of property [P], as
      with [strictNullChecks] off.  The compiler option is not part of the
      source; the definitions named [...In] take it as an argument, and
      the statements that mention them hold in both modes unless they say
      otherwise.
    - Only record fields have names: the built-in members of primitives,
      arrays and callables ([length], [toString], ...) are not keys here.
    - [A & B] of two object types is shown as one record whose same-named
      properties are intersected, and [X & never] is [never]. *)

From Stdlib Require Import List String Ascii Bool Arith Lia.
Import ListNotations.
Local Open Scope string_scope.
Local Open Scope list_scope.

Set Implicit Arguments.

(** ** Data model *)

(** A record property: its key, the type stored under it, and the two
    modifiers [?] and [readonly]. *)
Record Field (N : Type) : Type := mkField {
  name : string;
  shape : N;
  optional : bool;
  readonly : bool
}.

Arguments mkField {N} name shape optional readonly.

(** [Leaf id false] is a primitive ([string], [number], ...);
    [Leaf id true] is a callable.  [ArrayOf false U] is [Array<U>] and
    [ArrayOf true U] is [ReadonlyArray<U>]. *)
Unset Elimination Schemes.
Inductive Shape : Type :=
| Leaf (typeId : string) (opaque : bool)
| ArrayOf (ro : bool) (elementShape : Shape)
| RecordOf (fields : list (Field Shape)).
Set Elimination Schemes.

Section Shape_induction.
Variable P : Shape -> Prop.
Hypothesis P_leaf : forall id o, P (Leaf id o).
Hypothesis P_array : forall ro U, P U -> P (ArrayOf ro U).
Hypothesis P_record : forall fs, Forall (fun f => P (shape f)) fs -> P (RecordOf fs).

Fixpoint Shape_ind (T : Shape) : P T :=
  match T with
  | Leaf id o => P_leaf id o
  | ArrayOf ro U => P_array ro (Shape_ind U)
  | RecordOf fs =>
      P_record
        ((fix all (l : list (Field Shape)) : Forall (fun f => P (shape f)) l :=
            match l with
            | [] => Forall_nil _
            | f :: l' => Forall_cons f (Shape_ind (shape f)) (all l')
            end) fs)
  end.
End Shape_induction.

(** One level of a shape, as seen by a walker that recurses on its own. *)
Inductive Kind (N : Type) : Type :=
| KLeaf (typeId : string) (opaque : bool)
| KArrayOf (ro : bool) (elementShape : N)
| KRecordOf (fields : list (Field N)).

Arguments KLeaf {N} typeId opaque.
Arguments KArrayOf {N} ro elementShape.
Arguments KRecordOf {N} fields.

Definition classify (T : Shape) : Kind Shape :=
  match T with
  | Leaf id o => KLeaf id o
  | ArrayOf ro U => KArrayOf ro U
  | RecordOf fs => KRecordOf fs
  end.

(** ** DeepPartial, DeepRequired (lines 33-58) *)

(** The template shared by both aliases:
    [T[P] extends Array<infer U> ? rec<U>[]
     : T[P] extends ReadonlyArray<infer U> ? ReadonlyArray<rec<U>>
     : T[P] extends object ? rec<T[P]> : T[P]]. *)
Definition field_template (rec : Shape -> Shape) (X : Shape) : Shape :=
  match X with
  | ArrayOf false U => ArrayOf false (rec U)
  | ArrayOf true U => ArrayOf true (rec U)
  | RecordOf _ => rec X
  | Leaf _ true => rec X
  | Leaf _ false => X
  end.

(** [{ [P in keyof T]?: template }]: a mapped type, homomorphic in [T]. *)
Fixpoint DeepPartial (T : Shape) : Shape :=
  match T with
  | Leaf _ false => T                 (* primitive: not mapped *)
  | Leaf _ true => RecordOf []        (* callable: no key to map *)
  | ArrayOf ro U => ArrayOf ro (field_template DeepPartial U)
  | RecordOf fs =>
      RecordOf (map (fun f => mkField (name f)
                                      (field_template DeepPartial (shape f))
                                      true (readonly f)) fs)
  end.

(** [{ [P in keyof T]-?: template }] *)
Fixpoint DeepRequired (T : Shape) : Shape :=
  match T with
  | Leaf _ false => T
  | Leaf _ true => RecordOf []
  | ArrayOf ro U => ArrayOf ro (field_template DeepRequired U)
  | RecordOf fs =>
      RecordOf (map (fun f => mkField (name f)
                                      (field_template DeepRequired (shape f))
                                      false (readonly f)) fs)
  end.

(** ** DeepReadonly, DeepMutable (lines 67-82) *)

(** The four branches in the order of the source.  A readonly array is no
    [Array<infer U>]; it reaches the object branch, whose mapped type turns
    an array into the array of the mapped elements. *)
Fixpoint DeepReadonly (T : Shape) : Shape :=
  match T with
  | Leaf _ true => T                                        (* Function *)
  | ArrayOf false U => ArrayOf true (DeepReadonly U)        (* Array<infer U> *)
  | ArrayOf true U => ArrayOf true (DeepReadonly U)         (* object, an array *)
  | RecordOf fs =>                                          (* object *)
      RecordOf (map (fun f => mkField (name f) (DeepReadonly (shape f))
                                      (optional f) true) fs)
  | Leaf _ false => T
  end.

Fixpoint DeepMutable (T : Shape) : Shape :=
  match T with
  | Leaf _ true => T                                        (* Function *)
  | ArrayOf false U => ArrayOf false (DeepMutable U)        (* Array<infer U> *)
  | ArrayOf true U => ArrayOf false (DeepMutable U)         (* object, [-readonly] *)
  | RecordOf fs =>                                          (* object *)
      RecordOf (map (fun f => mkField (name f) (DeepMutable (shape f))
                                      false false) fs)
  | Leaf _ false => T
  end.

(** ** DeepIntersection (lines 125-137) *)

(** Types that [DeepIntersection] builds: a shape taken over verbatim
    ([T[P]], [D[P]]), an array or object type written by a mapped type,
    [never], and an intersection that is not the merge of two records. *)
Unset Elimination Schemes.
Inductive Meet : Type :=
| MNever
| MShape (s : Shape)
| MArrayOf (ro : bool) (elementShape : Meet)
| MRecordOf (fields : list (Field Meet))
| MBoth (l r : Meet).
Set Elimination Schemes.

Definition has_key (k : string) (ks : list string) : bool :=
  existsb (String.eqb k) ks.

Definition keyof (T : Shape) : list string :=
  match T with
  | RecordOf fs => map (@name Shape) fs
  | _ => []
  end.

Definition get_field {N : Type} (k : string) (fs : list (Field N)) : option (Field N) :=
  find (fun f => String.eqb (name f) k) fs.

(** Template of the first mapped type (lines 126-132). *)
Definition inter_template (rec : Shape -> Meet) (X : Shape) : Meet :=
  match X with
  | ArrayOf false U => MArrayOf false (rec U)
  | ArrayOf true U => MArrayOf true (rec U)
  | RecordOf _ => rec X
  | Leaf _ true => rec X
  | Leaf _ false => MShape X
  end.

(** The second mapped type (lines 133-137), homomorphic in [D]:
    [{ [P in keyof D]: P extends keyof T ? never : D[P] }].  The key [P]
    stays in the mapped type whichever branch is taken. *)
Definition additional (T D : Shape) : Meet :=
  match D with
  | Leaf _ false => MShape D
  | Leaf _ true => MRecordOf []
  | ArrayOf ro U =>
      MArrayOf ro (match T with ArrayOf _ _ => MNever | _ => MShape U end)
  | RecordOf ds =>
      MRecordOf (map (fun d => mkField (name d)
                                       (if has_key (name d) (keyof T)
                                        then MNever else MShape (shape d))
                                       (optional d) (readonly d)) ds)
  end.

(** [X & Y] on property types. *)
Definition both (X Y : Meet) : Meet :=
  match X, Y with
  | MNever, _ => MNever
  | _, MNever => MNever
  | _, _ => MBoth X Y
  end.

(** [A & B]: two object types merge into one record, the properties of [A]
    first; a property of both has the intersection of the two types and is
    optional (readonly) when it is so on both sides. *)
Definition meet (A B : Meet) : Meet :=
  match A, B with
  | MRecordOf fa, MRecordOf fb =>
      MRecordOf
        (map (fun f => match get_field (name f) fb with
                       | Some g => mkField (name f) (both (shape f) (shape g))
                                           (optional f && optional g)
                                           (readonly f && readonly g)
                       | None => f
                       end) fa
         ++ filter (fun g => negb (has_key (name g) (map (@name Meet) fa))) fb)
  | _, _ => both A B
  end.

(** The first mapped type, homomorphic in [T], intersected with the second;
    every recursive instantiation receives the whole of [D]. *)
Fixpoint DeepIntersection (T D : Shape) {struct T} : Meet :=
  meet
    (match T with
     | Leaf _ false => MShape T
     | Leaf _ true => MRecordOf []
     | ArrayOf ro U =>
         MArrayOf ro (inter_template (fun X => DeepIntersection X D) U)
     | RecordOf fs =>
         MRecordOf (map (fun f => mkField (name f)
                                          (inter_template (fun X => DeepIntersection X D) (shape f))
                                          (optional f) (readonly f)) fs)
     end)
    (additional T D).

(** ** Join, Prev, Paths, PathValue (lines 84-111) *)

(** A member of the union that [Paths] returns is a template literal type:
    literal characters and [${number}] holes.  A string literal is a template
    without holes; the empty string is the empty template. *)
Inductive piece : Type :=
| Chr (c : ascii)
| Num.

Definition template : Type := list piece.

Definition lit (s : string) : template := map Chr (list_ascii_of_string s).

Definition dot : ascii := "."%char.

(** [`${K}.${P}`] *)
Definition Join (K P : template) : template := K ++ Chr dot :: P.

(** The tuple [Prev], with [never] written [None]. *)
Definition Prev : list (option nat) :=
  [None; Some 0; Some 1; Some 2; Some 3; Some 4; Some 5; Some 6; Some 7;
   Some 8; Some 9; Some 10].

(** [Prev[D]]; indexing by [never] is [never]. *)
Definition PrevAt (D : option nat) : option nat :=
  match D with
  | None => None
  | Some d => nth d Prev None
  end.

(** A depth argument is [never] or a literal; its level counts the
    instantiations of [Paths] it still allows: none for [never], [d + 1] for
    the literal [d]. *)
Definition level (D : option nat) : nat :=
  match D with
  | None => 0
  | Some d => S d
  end.

Section Walk.
(** The walk never looks at a whole shape, only at one level of it, so it
    is written over any carrier of nodes with a one-level view; a carrier
    may be a graph with cycles. *)
Variable node : Type.
Variable view : node -> Kind node.

(** [X extends object] *)
Definition is_object (X : node) : bool :=
  match view X with
  | KLeaf _ o => o
  | KArrayOf _ _ => true
  | KRecordOf _ => true
  end.

(** [Paths<T, D>] at the level of [D].  Level [0] is [[D] extends [never]];
    at level [lv + 1] the recursive instantiation receives [Prev[D]], whose
    level is [lv] (lemma [Prev_level]).  The result lists the members of
    the union that are strings or numbers.
    An array is an object, and the mapped type over it is the array of the
    template at [K = number]; indexing that array by [keyof T] yields the
    element and [number] (from [length]); the method members are not
    strings and [Join] drops them. *)
Fixpoint PathsAt (lv : nat) (T : node) : list template :=
  match lv with
  | 0 => []
  | S lv' =>
      match view T with
      | KLeaf _ false => [lit ""]
      | KLeaf _ true => []
      | KArrayOf _ U =>
          if is_object U
          then [Num] :: map (Join [Num]) (PathsAt lv' U)
          else [[Num]]
      | KRecordOf fs =>
          flat_map (fun f =>
                      if is_object (shape f)
                      then lit (name f) :: map (Join (lit (name f))) (PathsAt lv' (shape f))
                      else [lit (name f)]) fs
      end
  end.

(** [Paths<T, D>] for a literal [D]; [Paths<T>] is [Paths T 5]. *)
Definition Paths (T : node) (D : nat) : list template := PathsAt (level (Some D)) T.

(** [K extends keyof T ? T[K] : never], with [never] written [None]. *)
Definition member (T : node) (K : string) : option node :=
  match view T with
  | KRecordOf fs => option_map (@shape node) (get_field K fs)
  | _ => None
  end.

(** [PathValue<T, P>], reading [P] from the left; [K] holds the characters
    read since the last dot.  At a dot [P] matches [`${infer K}.${infer Rest}`]
    with this [K]; at the end of the string no dot is left and the second
    branch [P extends keyof T ? T[P] : never] applies. *)
Fixpoint PathValueFrom (T : node) (K : string) (P : string) : option node :=
  match P with
  | EmptyString => member T K
  | String c Rest =>
      if Ascii.eqb c dot
      then match member T K with
           | Some TK => PathValueFrom TK "" Rest
           | None => None
           end
      else PathValueFrom T (K ++ String c "") Rest
  end.

Definition PathValue (T : node) (P : string) : option node :=
  PathValueFrom T "" P.
End Walk.

(** ** Vocabulary of the statements *)

(** A descent into a shape: into the field of a record or into the element
    of an array. *)
Inductive step : Type :=
| child (k : string)
| element.

Fixpoint sub (r : list step) (T : Shape) : option Shape :=
  match r with
  | [] => Some T
  | child k :: r' =>
      match T with
      | RecordOf fs =>
          match get_field k fs with
          | Some f => sub r' (shape f)
          | None => None
          end
      | _ => None
      end
  | element :: r' =>
      match T with
      | ArrayOf _ U => sub r' U
      | _ => None
      end
  end.

Fixpoint msub (r : list step) (M : Meet) : option Meet :=
  match r with
  | [] => Some M
  | child k :: r' =>
      match M with
      | MRecordOf fs =>
          match get_field k fs with
          | Some f => msub r' (shape f)
          | None => None
          end
      | _ => None
      end
  | element :: r' =>
      match M with
      | MArrayOf _ U => msub r' U
      | _ => None
      end
  end.


(** A predicate on every field of a shape, at every depth. *)
Fixpoint all_fields (p : Field Shape -> bool) (T : Shape) : bool :=
  match T with
  | Leaf _ _ => true
  | ArrayOf _ U => all_fields p U
  | RecordOf fs => forallb (fun f => p f && all_fields p (shape f)) fs
  end.

Fixpoint no_opaque (T : Shape) : bool :=
  match T with
  | Leaf _ o => negb o
  | ArrayOf _ U => no_opaque U
  | RecordOf fs => forallb (fun f => no_opaque (shape f)) fs
  end.

Definition is_record (T : Shape) : bool :=
  match T with
  | RecordOf _ => true
  | _ => false
  end.

Definition dot_free (k : string) : bool :=
  negb (existsb (Ascii.eqb dot) (list_ascii_of_string k)).

Fixpoint distinct (ks : list string) : bool :=
  match ks with
  | [] => true
  | k :: ks' => negb (has_key k ks') && distinct ks'
  end.

(** Every record of the shape has pairwise distinct keys, none of which
    contains a dot. *)
Fixpoint well_named (T : Shape) : bool :=
  match T with
  | Leaf _ _ => true
  | ArrayOf _ U => well_named U
  | RecordOf fs =>
      distinct (map (@name Shape) fs)
      && forallb (fun f => dot_free (name f) && well_named (shape f)) fs
  end.

Definition is_dot (x : piece) : bool :=
  match x with
  | Chr c => Ascii.eqb c dot
  | Num => false
  end.

(** Dots of a template, and the segments they separate. *)
Definition joins (p : template) : nat := List.length (filter is_dot p).
Definition segments (p : template) : nat := S (joins p).

(** ** Sample shapes *)

Definition int_ : Shape := Leaf "int" false.
Definition string_ : Shape := Leaf "string" false.
Definition number_ : Shape := Leaf "number" false.
Definition bool_ : Shape := Leaf "bool" false.
Definition callback_ : Shape := Leaf "() => void" true.

Definition plain {N : Type} (k : string) (T : N) : Field N := mkField k T false false.

(** [type User] of the doc comments (lines 29, 63, 93, 106). *)
Definition User : Shape :=
  RecordOf
    [plain "id" number_;
     plain "profile"
       (RecordOf
          [plain "name" string_;
           plain "address" (RecordOf [plain "city" string_; plain "zip" number_])])].

(** [type User] of line 75, every property [readonly] and optional but
    [profile] and [address], which are optional only. *)
Definition FrozenUser : Shape :=
  RecordOf
    [mkField "id" number_ true true;
     mkField "profile"
       (RecordOf
          [mkField "name" string_ true true;
           mkField "address"
             (RecordOf [mkField "city" string_ true true;
                        mkField "zip" number_ true true])
             true false])
       true false].

(** [interface Loop { self: Loop }]: one node whose only field is the node
    itself. *)
Definition Loop (_ : unit) : Kind unit := KRecordOf [plain "self" tt].

Definition primary : Shape := RecordOf [plain "a" int_].
Definition secondary : Shape := RecordOf [plain "a" string_; plain "b" bool_].

Definition handlers : Shape := RecordOf [plain "run" callback_].

Definition tagged : Shape :=
  RecordOf [plain "tags" (ArrayOf false (RecordOf [plain "n" string_]))].

Definition dotted : Shape := RecordOf [plain "a.b" number_].

Definition listed : Shape := RecordOf [plain "a" (ArrayOf false int_)].

Definition draft : Shape :=
  RecordOf [mkField "id" number_ true true;
            mkField "tags" (ArrayOf true string_) true false].

(** ** ElementOf, Flat (lines 14-24) *)

(** [T extends readonly (infer E)[] ? E : never], with [never] written
    [None]; the pattern accepts both kinds of array. *)
Definition ElementOf (T : Shape) : option Shape :=
  match T with
  | ArrayOf _ E => Some E
  | _ => None
  end.

(** [T extends readonly (infer E)[]
     ? (E extends readonly any[] ? E[number] : E)[] : never].
    The result is written [(...)[]], a mutable array. *)
Definition Flat (T : Shape) : option Shape :=
  match T with
  | ArrayOf _ E =>
      Some (ArrayOf false (match E with
                           | ArrayOf _ V => V
                           | _ => E
                           end))
  | _ => None
  end.

(** ** Further vocabulary *)


(** A predicate on the kind of every array of a shape, at every depth. *)
Fixpoint all_arrays (p : bool -> bool) (T : Shape) : bool :=
  match T with
  | Leaf _ _ => true
  | ArrayOf ro U => p ro && all_arrays p U
  | RecordOf fs => forallb (fun f => all_arrays p (shape f)) fs
  end.

(** Nesting of records and arrays. *)
Fixpoint height (T : Shape) : nat :=
  match T with
  | Leaf _ _ => 0
  | ArrayOf _ U => S (height U)
  | RecordOf fs => S (fold_right (fun f m => Nat.max (height (shape f)) m) 0 fs)
  end.

(** The keys [k], [k1], ..., [kn] joined by dots. *)
Fixpoint dotted_path (k : string) (ks : list string) : string :=
  match ks with
  | [] => k
  | k' :: ks' => k ++ String dot (dotted_path k' ks')
  end.

(** The properties of an object type, none for the other types. *)
Definition properties (M : Meet) : list (Field Meet) :=
  match M with
  | MRecordOf ms => ms
  | _ => []
  end.


Definition Meta : Shape := RecordOf [mkField "metadata" string_ true false].

(** ** The two compiler modes *)

(** The definitions above read [T[P]] as the declared type of [P], which
    is what the compiler does with [strictNullChecks] off.  With the option
    on, reading an optional property gives [X | undefined]; the conditions
    [T[P] extends Array<infer U>], [... ReadonlyArray<infer U>] and
    [... object] are tested on the indexed access itself, do not
    distribute, and fail on that union.  The definitions below take the
    option as an argument, [strict = false] being the reading above.

    [DeepReadonly] and [DeepMutable] are conditional types on [T] itself;
    they distribute over [X | undefined] and are the same in both modes.

    One effect of the strict mode has no [Shape]: a mapped type with [?]
    applied to an array adds [undefined] to the element type, which
    [DeepPartialIn true] leaves out.  What is stated below of
    [DeepPartialIn true] is about the flags and the record fields of its
    result and about applying it twice; the element of an array is stated
    for the other transforms only. *)

(** Lines 33-41: under an optional key the strict compiler takes the last
    branch of the template, [T[P]] itself. *)
Fixpoint DeepPartialIn (strict : bool) (T : Shape) : Shape :=
  match T with
  | Leaf _ false => T
  | Leaf _ true => RecordOf []
  | ArrayOf ro U => ArrayOf ro (field_template (DeepPartialIn strict) U)
  | RecordOf fs =>
      RecordOf (map (fun f => mkField (name f)
                                      (if strict && optional f
                                       then shape f
                                       else field_template (DeepPartialIn strict) (shape f))
                                      true (readonly f)) fs)
  end.

(** Lines 50-58: the same, and [-?] removes the [undefined] again. *)
Fixpoint DeepRequiredIn (strict : bool) (T : Shape) : Shape :=
  match T with
  | Leaf _ false => T
  | Leaf _ true => RecordOf []
  | ArrayOf ro U => ArrayOf ro (field_template (DeepRequiredIn strict) U)
  | RecordOf fs =>
      RecordOf (map (fun f => mkField (name f)
                                      (if strict && optional f
                                       then shape f
                                       else field_template (DeepRequiredIn strict) (shape f))
                                      false (readonly f)) fs)
  end.

Section WalkIn.
Variable node : Type.
Variable view : node -> Kind node.
Variable strict : bool.

(** Lines 97-101 in either mode: [T[K] extends object] fails for an
    optional key under the strict compiler, and the key is listed alone. *)
Fixpoint PathsAtIn (lv : nat) (T : node) : list template :=
  match lv with
  | 0 => []
  | S lv' =>
      match view T with
      | KLeaf _ false => [lit ""]
      | KLeaf _ true => []
      | KArrayOf _ U =>
          if is_object view U
          then [Num] :: map (Join [Num]) (PathsAtIn lv' U)
          else [[Num]]
      | KRecordOf fs =>
          flat_map (fun f =>
                      if is_object view (shape f) && negb (strict && optional f)
                      then lit (name f) :: map (Join (lit (name f))) (PathsAtIn lv' (shape f))
                      else [lit (name f)]) fs
      end
  end.

Definition PathsIn (T : node) (D : nat) : list template := PathsAtIn (level (Some D)) T.
End WalkIn.

(** ** The transforms one level at a time *)

(** The compiler does not expand [DeepPartial<T>] to the leaves: it
    computes the members of an instantiated alias when they are asked
    for.  Over a carrier of nodes with a one-level view, which may be a
    graph with cycles, a transform is therefore a new one-level view. *)

Definition kmap {A B : Type} (g : A -> B) (k : Kind A) : Kind B :=
  match k with
  | KLeaf id o => KLeaf id o
  | KArrayOf ro U => KArrayOf ro (g U)
  | KRecordOf fs =>
      KRecordOf (map (fun f => mkField (name f) (g (shape f)) (optional f) (readonly f)) fs)
  end.

(** What a node of a transformed carrier stands for: the node as it is,
    the alias applied to it, or the template of the mapped type at it. *)
Inductive stage : Type :=
| verbatim
| applied
| templated.

(** The nodes of [DeepIntersection<T, D>]. *)
Inductive part (node : Type) : Type :=
| whole (n : node)           (* DeepIntersection<n, D> *)
| first (n : node)           (* the first mapped type at T = n *)
| second (n : node)          (* the second mapped type at T = n *)
| own (n : node)             (* the template of the first mapped type at n *)
| asis (n : node)            (* n itself: T[P] or D[P] *)
| nothing                    (* never *)
| pair_of (a b : part node). (* a & b *)

Arguments whole {node} n.
Arguments first {node} n.
Arguments second {node} n.
Arguments own {node} n.
Arguments asis {node} n.
Arguments nothing {node}.
Arguments pair_of {node} a b.

Section Lazy.
Variable node : Type.
Variable view : node -> Kind node.

(** Lines 67-70.  A node [n] of the new carrier stands for
    [DeepReadonly<n>]. *)
Definition DeepReadonly_view (n : node) : Kind node :=
  match view n with
  | KLeaf id true => KLeaf id true
  | KArrayOf _ U => KArrayOf true U
  | KRecordOf fs =>
      KRecordOf (map (fun f => mkField (name f) (shape f) (optional f) true) fs)
  | KLeaf id false => KLeaf id false
  end.

(** Lines 79-82.  A node [n] of the new carrier stands for
    [DeepMutable<n>]. *)
Definition DeepMutable_view (n : node) : Kind node :=
  match view n with
  | KLeaf id true => KLeaf id true
  | KArrayOf _ U => KArrayOf false U
  | KRecordOf fs =>
      KRecordOf (map (fun f => mkField (name f) (shape f) false false) fs)
  | KLeaf id false => KLeaf id false
  end.

Variable strict : bool.

(** The mapped type of [DeepPartial] or [DeepRequired] at [T = n]; [opt]
    is the flag its modifier writes. *)
Definition mapped_view (opt : bool) (n : node) : Kind (stage * node) :=
  match view n with
  | KLeaf id false => KLeaf id false
  | KLeaf id true => KRecordOf []
  | KArrayOf ro U => KArrayOf ro (templated, U)
  | KRecordOf fs =>
      KRecordOf (map (fun f => mkField (name f)
                                       (if strict && optional f
                                        then (verbatim, shape f)
                                        else (templated, shape f))
                                       opt (readonly f)) fs)
  end.

(** The template at [T[P] = n]: the two array branches build an array of
    the alias applied to the element, the object branch applies the alias,
    the last branch returns [n]. *)
Definition template_view (opt : bool) (n : node) : Kind (stage * node) :=
  match view n with
  | KArrayOf ro U => KArrayOf ro (applied, U)
  | KLeaf id false => KLeaf id false
  | _ => mapped_view opt n
  end.

Definition staged_view (opt : bool) (t : stage * node) : Kind (stage * node) :=
  match fst t with
  | verbatim => kmap (fun m => (verbatim, m)) (view (snd t))
  | applied => mapped_view opt (snd t)
  | templated => template_view opt (snd t)
  end.

(** Lines 33-41 and 50-58. *)
Definition DeepPartial_view : stage * node -> Kind (stage * node) := staged_view true.
Definition DeepRequired_view : stage * node -> Kind (stage * node) := staged_view false.

(** Lines 125-137, [D] being a node of the same carrier. *)
Variable D : node.

Definition keys (n : node) : list string :=
  match view n with
  | KRecordOf fs => map (@name node) fs
  | _ => []
  end.

Definition first_view (n : node) : Kind (part node) :=
  match view n with
  | KLeaf id false => KLeaf id false
  | KLeaf id true => KRecordOf []
  | KArrayOf ro U => KArrayOf ro (own U)
  | KRecordOf fs =>
      KRecordOf (map (fun f => mkField (name f)
                                       (if strict && optional f
                                        then asis (shape f)
                                        else own (shape f))
                                       (optional f) (readonly f)) fs)
  end.

Definition second_view (n : node) : Kind (part node) :=
  match view D with
  | KLeaf id false => KLeaf id false
  | KLeaf id true => KRecordOf []
  | KArrayOf ro U =>
      KArrayOf ro (match view n with KArrayOf _ _ => nothing | _ => asis U end)
  | KRecordOf ds =>
      KRecordOf (map (fun d => mkField (name d)
                                       (if has_key (name d) (keys n)
                                        then nothing else asis (shape d))
                                       (optional d) (readonly d)) ds)
  end.

(** [a & b] on property types. *)
Definition part_meet (a b : part node) : part node :=
  match a, b with
  | nothing, _ => nothing
  | _, nothing => nothing
  | _, _ => pair_of a b
  end.

(** One level of an intersected type: [never], a leaf, array or record,
    or an intersection that is not the merge of two records. *)
Inductive Level : Type :=
| LNever
| LKind (k : Kind (part node))
| LBoth (a b : part node).

Definition level_meet (a b : part node) (ka kb : Kind (part node)) : Level :=
  match ka, kb with
  | KRecordOf fa, KRecordOf fb =>
      LKind (KRecordOf
               (map (fun f => match get_field (name f) fb with
                              | Some g => mkField (name f) (part_meet (shape f) (shape g))
                                                  (optional f && optional g)
                                                  (readonly f && readonly g)
                              | None => f
                              end) fa
                ++ filter (fun g => negb (has_key (name g) (map (@name (part node)) fa))) fb))
  | _, _ => LBoth a b
  end.

Definition DeepIntersection_view (p : part node) : Level :=
  match p with
  | whole n => level_meet (first n) (second n) (first_view n) (second_view n)
  | first n => LKind (first_view n)
  | second n => LKind (second_view n)
  | own n =>
      match view n with
      | KArrayOf ro U => LKind (KArrayOf ro (whole U))
      | KLeaf id false => LKind (KLeaf id false)
      | _ => level_meet (first n) (second n) (first_view n) (second_view n)
      end
  | asis n => LKind (kmap asis (view n))
  | nothing => LNever
  | pair_of a b => LBoth a b
  end.

End Lazy.

(** A descent on a carrier whose nodes may have no one-level view; with
    [req] it passes through required fields only. *)
Section Descend.
Variable N : Type.
Variable v : N -> option (Kind N).

Definition into (req : bool) (s : step) (n : N) : option N :=
  match s, v n with
  | child k, Some (KRecordOf fs) =>
      match get_field k fs with
      | Some f => if req && optional f then None else Some (shape f)
      | None => None
      end
  | element, Some (KArrayOf _ U) => Some U
  | _, _ => None
  end.

Fixpoint descend (req : bool) (r : list step) (n : N) : option N :=
  match r with
  | [] => Some n
  | s :: r' =>
      match into req s n with
      | Some m => descend req r' m
      | None => None
      end
  end.
End Descend.

Definition total {N : Type} (v : N -> Kind N) (n : N) : option (Kind N) := Some (v n).

(** What a staged node stands for when the carrier is [Shape]. *)
Definition force (F : Shape -> Shape) (t : stage * Shape) : Shape :=
  match fst t with
  | verbatim => snd t
  | applied => F (snd t)
  | templated => field_template F (snd t)
  end.

(** What a node of [DeepIntersection_view] stands for when the carrier is
    [Shape]. *)
Definition first_of (T D : Shape) : Meet :=
  match T with
  | Leaf _ false => MShape T
  | Leaf _ true => MRecordOf []
  | ArrayOf ro U =>
      MArrayOf ro (inter_template (fun X => DeepIntersection X D) U)
  | RecordOf fs =>
      MRecordOf (map (fun f => mkField (name f)
                                       (inter_template (fun X => DeepIntersection X D) (shape f))
                                       (optional f) (readonly f)) fs)
  end.

Fixpoint reify (D : Shape) (p : part Shape) : Meet :=
  match p with
  | whole X => DeepIntersection X D
  | first X => first_of X D
  | second X => additional X D
  | own X => inter_template (fun Y => DeepIntersection Y D) X
  | asis X => MShape X
  | nothing => MNever
  | pair_of a b => MBoth (reify D a) (reify D b)
  end.

Definition reify_level (D : Shape) (l : Level Shape) : Meet :=
  match l with
  | LNever _ => MNever
  | LKind (KLeaf id o) => MShape (Leaf id o)
  | LKind (KArrayOf ro p) => MArrayOf ro (reify D p)
  | LKind (KRecordOf fs) =>
      MRecordOf (map (fun f => mkField (name f) (reify D (shape f))
                                       (optional f) (readonly f)) fs)
  | LBoth a b => MBoth (reify D a) (reify D b)
  end.




(** ** The model on the examples of the doc comments *)

Example Paths_User :
  Paths classify User 5
  = map lit ["id"; "profile"; "profile.name"; "profile.address";
             "profile.address.city"; "profile.address.zip"].
Proof. reflexivity. Qed.

Example PathValue_User :
  PathValue classify User "profile.address.city" = Some string_.
Proof. reflexivity. Qed.

Example DeepPartial_User :
  all_fields (@optional Shape) (DeepPartial User) = true.
Proof. reflexivity. Qed.

Example DeepRequired_User : DeepRequired (DeepPartial User) = User.
Proof. reflexivity. Qed.

Example DeepReadonly_User :
  all_fields (@readonly Shape) (DeepReadonly User) = true.
Proof. reflexivity. Qed.

Example DeepMutable_User : DeepMutable FrozenUser = User.
Proof. reflexivity. Qed.

Example DeepIntersection_Nested :
  DeepIntersection
    (RecordOf [plain "level_1" (RecordOf [plain "level_2" (RecordOf [])])])
    (RecordOf [mkField "metadata" string_ true false])
  = let metadata := mkField "metadata" (MShape string_) true false in
    MRecordOf
      [plain "level_1"
         (MRecordOf [plain "level_2" (MRecordOf [metadata]); metadata]);
       metadata].
Proof. reflexivity. Qed.

(** ** Lists of fields *)

Lemma Prev_level : forall d, d < List.length Prev -> level (PrevAt (Some d)) = d.
Proof.
  intros d Hd. simpl in Hd.
  do 12 (destruct d as [|d]; [reflexivity|]). lia.
Qed.

Lemma get_field_map :
  forall (A B : Type) (g : Field A -> Field B) k (fs : list (Field A)),
    (forall f, name (g f) = name f) ->
    get_field k (map g fs) = option_map g (get_field k fs).
Proof.
  intros A B g k fs Hg. unfold get_field.
  induction fs as [|f fs IH]; simpl; [reflexivity|].
  rewrite Hg. destruct (String.eqb (name f) k); [reflexivity|exact IH].
Qed.

Lemma has_key_true : forall k ks, has_key k ks = true <-> In k ks.
Proof.
  intros k ks. unfold has_key. rewrite existsb_exists. split.
  - intros [x [Hin Heq]]. apply String.eqb_eq in Heq. now subst.
  - intros Hin. exists k. split; [exact Hin|apply String.eqb_refl].
Qed.

Lemma has_key_false : forall k ks, has_key k ks = false <-> ~ In k ks.
Proof.
  intros k ks. rewrite <- has_key_true. destruct (has_key k ks); split; congruence.
Qed.

Lemma get_field_None :
  forall (N : Type) k (fs : list (Field N)),
    get_field k fs = None <-> ~ In k (map (@name N) fs).
Proof.
  intros N k fs. unfold get_field. induction fs as [|f fs IH]; simpl.
  - tauto.
  - destruct (String.eqb (name f) k) eqn:E.
    + apply String.eqb_eq in E. split; [discriminate|tauto].
    + apply String.eqb_neq in E. rewrite IH. tauto.
Qed.

Lemma get_field_name :
  forall (N : Type) k (fs : list (Field N)) f,
    get_field k fs = Some f -> name f = k /\ In f fs.
Proof.
  intros N k fs f H. unfold get_field in H. apply find_some in H.
  destruct H as [Hin Heq]. apply String.eqb_eq in Heq. tauto.
Qed.

Lemma get_field_distinct :
  forall (N : Type) (fs : list (Field N)) f,
    distinct (map (@name N) fs) = true -> In f fs ->
    get_field (name f) fs = Some f.
Proof.
  intros N fs f. unfold get_field. induction fs as [|g fs IH]; simpl; [tauto|].
  intros Hd [->|Hin].
  - now rewrite String.eqb_refl.
  - apply andb_prop in Hd. destruct Hd as [Hg Hd].
    destruct (String.eqb (name g) (name f)) eqn:E.
    + apply String.eqb_eq in E. apply negb_true_iff in Hg.
      apply has_key_false in Hg. exfalso. apply Hg. rewrite E.
      now apply in_map.
    + now apply IH.
Qed.

(** ** The four flag transforms *)

(** In the template the array branches and the object branch agree with the
    alias itself, so each field simply carries the transformed sub-shape. *)
Lemma DeepPartial_template : forall X, field_template DeepPartial X = DeepPartial X.
Proof.
  induction X as [id o|ro U IH|fs _] using Shape_ind; simpl.
  - destruct o; reflexivity.
  - rewrite IH. destruct ro; reflexivity.
  - reflexivity.
Qed.

Lemma DeepRequired_template : forall X, field_template DeepRequired X = DeepRequired X.
Proof.
  induction X as [id o|ro U IH|fs _] using Shape_ind; simpl.
  - destruct o; reflexivity.
  - rewrite IH. destruct ro; reflexivity.
  - reflexivity.
Qed.

Lemma DeepPartial_record : forall fs,
  DeepPartial (RecordOf fs)
  = RecordOf (map (fun f => mkField (name f) (DeepPartial (shape f)) true (readonly f)) fs).
Proof.
  intros fs. simpl. f_equal. apply map_ext. intros f.
  now rewrite DeepPartial_template.
Qed.

Lemma DeepRequired_record : forall fs,
  DeepRequired (RecordOf fs)
  = RecordOf (map (fun f => mkField (name f) (DeepRequired (shape f)) false (readonly f)) fs).
Proof.
  intros fs. simpl. f_equal. apply map_ext. intros f.
  now rewrite DeepRequired_template.
Qed.

Lemma DeepPartial_array : forall ro U,
  DeepPartial (ArrayOf ro U) = ArrayOf ro (DeepPartial U).
Proof. intros. simpl. now rewrite DeepPartial_template. Qed.

Lemma DeepRequired_array : forall ro U,
  DeepRequired (ArrayOf ro U) = ArrayOf ro (DeepRequired U).
Proof. intros. simpl. now rewrite DeepRequired_template. Qed.

Lemma DeepReadonly_array : forall ro U,
  DeepReadonly (ArrayOf ro U) = ArrayOf true (DeepReadonly U).
Proof. intros [] U; reflexivity. Qed.

Lemma DeepMutable_array : forall ro U,
  DeepMutable (ArrayOf ro U) = ArrayOf false (DeepMutable U).
Proof. intros [] U; reflexivity. Qed.

(** A transform that rewrites a record field by field and an array
    element by element commutes with every descent. *)
Section Descent.
Variable F : Shape -> Shape.
Variable opt rdo : Field Shape -> bool.
Variable arr : bool -> bool.
Hypothesis F_record : forall fs,
  F (RecordOf fs) = RecordOf (map (fun f => mkField (name f) (F (shape f)) (opt f) (rdo f)) fs).
Hypothesis F_array : forall ro U, F (ArrayOf ro U) = ArrayOf (arr ro) (F U).

Lemma sub_commutes : forall r T U,
  sub r T = Some U -> sub r (F T) = Some (F U).
Proof.
  induction r as [|[k|] r IH]; intros T U H; simpl in *.
  - congruence.
  - destruct T as [| |fs]; try discriminate.
    rewrite F_record.
    rewrite get_field_map by reflexivity.
    destruct (get_field k fs) as [f|]; [|discriminate]. simpl.
    now apply IH.
  - destruct T as [|ro V|]; try discriminate.
    rewrite F_array. now apply IH.
Qed.
End Descent.

Lemma DeepReadonly_record : forall fs,
  DeepReadonly (RecordOf fs)
  = RecordOf (map (fun f => mkField (name f) (DeepReadonly (shape f)) (optional f) true) fs).
Proof. reflexivity. Qed.

Lemma DeepMutable_record : forall fs,
  DeepMutable (RecordOf fs)
  = RecordOf (map (fun f => mkField (name f) (DeepMutable (shape f)) false false) fs).
Proof. reflexivity. Qed.

Lemma map_fields_ext :
  forall (g h : Field Shape -> Field Shape) (P : Shape -> Prop) fs,
    Forall (fun f => P (shape f)) fs ->
    (forall f, P (shape f) -> g f = h f) ->
    map g fs = map h fs.
Proof.
  intros g h P fs Hall Hgh. induction Hall as [|f fs Hf _ IH]; simpl.
  - reflexivity.
  - rewrite (Hgh f Hf), IH. reflexivity.
Qed.

Lemma DeepPartial_idem : forall T, DeepPartial (DeepPartial T) = DeepPartial T.
Proof.
  induction T as [id o|ro U IH|fs IH] using Shape_ind.
  - destruct o; reflexivity.
  - rewrite !DeepPartial_array. now rewrite IH.
  - rewrite !DeepPartial_record, map_map. f_equal.
    apply map_fields_ext with (P := fun X => DeepPartial (DeepPartial X) = DeepPartial X).
    + exact IH.
    + intros f Hf. simpl. now rewrite Hf.
Qed.

Lemma DeepRequired_idem : forall T, DeepRequired (DeepRequired T) = DeepRequired T.
Proof.
  induction T as [id o|ro U IH|fs IH] using Shape_ind.
  - destruct o; reflexivity.
  - rewrite !DeepRequired_array. now rewrite IH.
  - rewrite !DeepRequired_record, map_map. f_equal.
    apply map_fields_ext with (P := fun X => DeepRequired (DeepRequired X) = DeepRequired X).
    + exact IH.
    + intros f Hf. simpl. now rewrite Hf.
Qed.



Lemma DeepMutable_DeepReadonly : forall T, DeepMutable (DeepReadonly T) = DeepMutable T.
Proof.
  induction T as [id o|ro U IH|fs IH] using Shape_ind.
  - destruct o; reflexivity.
  - rewrite DeepReadonly_array, !DeepMutable_array. now rewrite IH.
  - rewrite DeepReadonly_record, !DeepMutable_record, map_map. f_equal.
    apply map_fields_ext with (P := fun X => DeepMutable (DeepReadonly X) = DeepMutable X).
    + exact IH.
    + intros f Hf. simpl. now rewrite Hf.
Qed.

Lemma DeepMutable_flags : forall T,
  all_fields (fun f => negb (readonly f) && negb (optional f)) (DeepMutable T) = true.
Proof.
  induction T as [id o|ro U IH|fs IH] using Shape_ind.
  - destruct o; reflexivity.
  - rewrite DeepMutable_array. exact IH.
  - rewrite DeepMutable_record. simpl. rewrite forallb_forall.
    intros g Hg. apply in_map_iff in Hg. destruct Hg as [f [<- Hf]]. simpl.
    rewrite Forall_forall in IH. now apply IH.
Qed.

Lemma get_field_app :
  forall (N : Type) k (l1 l2 : list (Field N)),
    get_field k (l1 ++ l2)
    = match get_field k l1 with
      | Some f => Some f
      | None => get_field k l2
      end.
Proof.
  intros N k l1 l2. unfold get_field. induction l1 as [|f l1 IH]; simpl.
  - reflexivity.
  - destruct (String.eqb (name f) k); [reflexivity|exact IH].
Qed.

(** ** DeepIntersection on records *)

Lemma both_never : forall X, both X MNever = MNever.
Proof. intros []; reflexivity. Qed.

Lemma names_map :
  forall (A B : Type) (g : Field A -> Field B) (fs : list (Field A)),
    (forall f, name (g f) = name f) ->
    map (@name B) (map g fs) = map (@name A) fs.
Proof.
  intros A B g fs Hg. rewrite map_map. apply map_ext. exact Hg.
Qed.

(** The fields of [DeepIntersection<T, D>] for two records: each field of
    [T] in the order of [T], then the fields of [D] whose key [T] lacks.  A
    field of [T] whose key [D] has too meets the [never] that the second
    mapped type stores under that key. *)
Lemma DeepIntersection_record : forall fs ds,
  DeepIntersection (RecordOf fs) (RecordOf ds)
  = MRecordOf
      (map (fun f =>
              match get_field (name f) ds with
              | Some d => mkField (name f) MNever
                                  (optional f && optional d) (readonly f && readonly d)
              | None => mkField (name f)
                                (inter_template (fun X => DeepIntersection X (RecordOf ds)) (shape f))
                                (optional f) (readonly f)
              end) fs
       ++ map (fun d => mkField (name d) (MShape (shape d)) (optional d) (readonly d))
              (filter (fun d => negb (has_key (name d) (map (@name Shape) fs))) ds)).
Proof.
  intros fs ds. simpl. unfold meet. f_equal. f_equal.
  - rewrite map_map. apply map_ext_in. intros f Hf. simpl.
    rewrite get_field_map by reflexivity.
    destruct (get_field (name f) ds) as [d|] eqn:E; simpl.
    + apply get_field_name in E. destruct E as [E _].
      assert (K : has_key (name d) (map (@name Shape) fs) = true).
      { apply has_key_true. rewrite E. now apply in_map. }
      rewrite K, both_never. reflexivity.
    + destruct f; reflexivity.
  - rewrite names_map by reflexivity.
    induction ds as [|d ds IH]; simpl; [reflexivity|].
    destruct (has_key (name d) (map (@name Shape) fs)) eqn:K; simpl.
    + exact IH.
    + now rewrite IH.
Qed.

Lemma msub_child : forall k r M,
  msub (child k :: r) M
  = match msub [child k] M with
    | Some X => msub r X
    | None => None
    end.
Proof.
  intros k r M. simpl. destruct M; try reflexivity.
  destruct (get_field k fields); reflexivity.
Qed.

(** A field of [T] whose key [D] lacks carries the template of the first
    mapped type. *)
Lemma DeepIntersection_own_field : forall fs ds k f,
  get_field k fs = Some f ->
  has_key k (map (@name Shape) ds) = false ->
  msub [child k] (DeepIntersection (RecordOf fs) (RecordOf ds))
  = Some (inter_template (fun X => DeepIntersection X (RecordOf ds)) (shape f)).
Proof.
  intros fs ds k f Hk Hd. rewrite DeepIntersection_record.
  cbn [msub]. rewrite get_field_app, get_field_map.
  - rewrite Hk. simpl. destruct (get_field_name _ _ Hk) as [Hn _].
    apply has_key_false in Hd. apply get_field_None in Hd.
    rewrite Hn, Hd. reflexivity.
  - intros g. destruct (get_field (name g) ds); reflexivity.
Qed.

(** A field of [T] whose key [D] has too is [never]. *)
Lemma DeepIntersection_clash : forall fs ds k f d,
  get_field k fs = Some f ->
  get_field k ds = Some d ->
  msub [child k] (DeepIntersection (RecordOf fs) (RecordOf ds)) = Some MNever.
Proof.
  intros fs ds k f d Hk Hd. rewrite DeepIntersection_record.
  cbn [msub]. rewrite get_field_app, get_field_map.
  - rewrite Hk. simpl. destruct (get_field_name _ _ Hk) as [Hn _].
    rewrite Hn, Hd. reflexivity.
  - intros g. destruct (get_field (name g) ds); reflexivity.
Qed.

(** A field that only [D] has is appended with the type it has in [D]. *)
Lemma DeepIntersection_gap : forall fs ds k d,
  get_field k fs = None ->
  get_field k ds = Some d ->
  msub [child k] (DeepIntersection (RecordOf fs) (RecordOf ds)) = Some (MShape (shape d)).
Proof.
  intros fs ds k d Hk Hd. rewrite DeepIntersection_record.
  cbn [msub]. rewrite get_field_app, get_field_map.
  - rewrite Hk. simpl. rewrite get_field_map by reflexivity.
    assert (E : get_field k (filter (fun d0 => negb (has_key (name d0) (map (@name Shape) fs))) ds)
                = Some d).
    { apply get_field_None in Hk. apply has_key_false in Hk.
      unfold get_field in *. clear - Hk Hd.
      induction ds as [|e ds IH]; simpl in *; [discriminate|].
      destruct (String.eqb (name e) k) eqn:E.
      - apply String.eqb_eq in E. rewrite E, Hk. simpl.
        rewrite E, String.eqb_refl. exact Hd.
      - destruct (negb (has_key (name e) (map (@name Shape) fs))); simpl.
        + rewrite E. now apply IH.
        + now apply IH. }
    rewrite E. reflexivity.
  - intros g. destruct (get_field (name g) ds); reflexivity.
Qed.

(** Along a route of record fields whose keys [D] lacks, the record that
    the route reaches is itself intersected with the whole of [D]. *)
Lemma DeepIntersection_descent : forall ks T g ds,
  sub (map child ks) T = Some (RecordOf g) ->
  Forall (fun k => has_key k (map (@name Shape) ds) = false) ks ->
  msub (map child ks) (DeepIntersection T (RecordOf ds))
  = Some (DeepIntersection (RecordOf g) (RecordOf ds)).
Proof.
  induction ks as [|k ks IH]; intros T g ds Hsub Hks.
  - simpl in Hsub. inversion Hsub. reflexivity.
  - inversion Hks as [|? ? Hk Hks']; subst.
    cbn [map] in *. rewrite msub_child.
    cbn [sub] in Hsub.
    destruct T as [| |fs]; try discriminate.
    destruct (get_field k fs) as [f|] eqn:E; [|discriminate].
    rewrite (@DeepIntersection_own_field fs ds k f E Hk).
    assert (R : is_record (shape f) = true).
    { destruct ks; simpl in Hsub.
      - injection Hsub as ->. reflexivity.
      - destruct (shape f); try discriminate. reflexivity. }
    destruct (shape f) as [| |hs] eqn:Hs; try discriminate.
    cbn [inter_template]. now apply IH.
Qed.

(** ** Templates and strings *)

Lemma append_empty : forall s : string, (s ++ "")%string = s.
Proof. induction s as [|c s IH]; simpl; [reflexivity|now rewrite IH]. Qed.

Lemma append_step : forall (K : string) c k,
  ((K ++ String c "") ++ k)%string = (K ++ String c k)%string.
Proof. induction K as [|a K IH]; intros c k; simpl; [reflexivity|now rewrite IH]. Qed.

Lemma lit_cons : forall c s, lit (String c s) = Chr c :: lit s.
Proof. reflexivity. Qed.

Lemma lit_inj : forall a b, lit a = lit b -> a = b.
Proof.
  induction a as [|c a IH]; intros [|d b] H; try discriminate.
  - reflexivity.
  - rewrite !lit_cons in H. injection H as -> H. f_equal. now apply IH.
Qed.

(** A literal that begins with the key [K] and a dot continues with a
    literal. *)
Lemma lit_split : forall K P q,
  lit P = Join (lit K) q -> exists Q, q = lit Q /\ P = (K ++ String dot Q)%string.
Proof.
  unfold Join. induction K as [|c K IH]; intros P q H.
  - destruct P as [|d P]; [discriminate|].
    rewrite lit_cons in H. simpl in H. injection H as -> H.
    exists P. split; [now symmetry|reflexivity].
  - destruct P as [|d P]; [discriminate|].
    rewrite !lit_cons in H. simpl in H. injection H as -> H.
    destruct (IH P q H) as [Q [Hq HP]]. exists Q. split; [exact Hq|].
    simpl. now rewrite HP.
Qed.

Lemma joins_lit : forall k, dot_free k = true -> joins (lit k) = 0.
Proof.
  unfold joins, dot_free, lit. intros k H. apply negb_true_iff in H.
  induction (list_ascii_of_string k) as [|c l IH];
    cbn [map filter existsb is_dot] in *; [reflexivity|].
  apply orb_false_iff in H. destruct H as [Hc Hl].
  rewrite Ascii.eqb_sym in Hc. rewrite Hc. now apply IH.
Qed.

Lemma joins_Join : forall K P, joins (Join K P) = joins K + S (joins P).
Proof.
  intros K P. unfold joins, Join. rewrite filter_app, length_app.
  cbn [filter is_dot]. rewrite Ascii.eqb_refl. reflexivity.
Qed.

(** ** PathValue, one key at a time *)

Section Resolve.
Variable node : Type.
Variable view : node -> Kind node.

Lemma PathValueFrom_read : forall k T K R,
  dot_free k = true ->
  PathValueFrom view T K (k ++ R)%string = PathValueFrom view T (K ++ k)%string R.
Proof.
  induction k as [|c k IH]; intros T K R H; cbn [append PathValueFrom].
  - now rewrite append_empty.
  - unfold dot_free in H. cbn [list_ascii_of_string existsb] in H.
    apply negb_true_iff in H.
    apply orb_false_iff in H. destruct H as [Hc Hk].
    rewrite Ascii.eqb_sym in Hc. rewrite Hc.
    rewrite IH, append_step.
    + reflexivity.
    + unfold dot_free. now rewrite Hk.
Qed.

(** The second branch of [PathValue]: a path without a dot is looked up
    as a key. *)
Lemma PathValue_key : forall T k,
  dot_free k = true -> PathValue view T k = member view T k.
Proof.
  intros T k H. unfold PathValue.
  rewrite <- (append_empty k) at 1. rewrite PathValueFrom_read by exact H.
  reflexivity.
Qed.

(** The first branch: [K] is the text before the first dot. *)
Lemma PathValue_dot : forall T k Rest,
  dot_free k = true ->
  PathValue view T (k ++ String dot Rest)%string
  = match member view T k with
    | Some TK => PathValue view TK Rest
    | None => None
    end.
Proof.
  intros T k Rest H. unfold PathValue.
  rewrite PathValueFrom_read by exact H. cbn [PathValueFrom append].
  rewrite Ascii.eqb_refl. reflexivity.
Qed.

(** [Paths] as the source writes it, with the depth argument and [Prev]. *)
Lemma PathsAt_never : forall T, PathsAt view (level None) T = [].
Proof. reflexivity. Qed.

Lemma PathsAt_Prev : forall d T,
  d < List.length Prev ->
  PathsAt view (level (Some d)) T
  = match view T with
    | KLeaf _ false => [lit ""]
    | KLeaf _ true => []
    | KArrayOf _ U =>
        if is_object view U
        then [Num] :: map (Join [Num]) (PathsAt view (level (PrevAt (Some d))) U)
        else [[Num]]
    | KRecordOf fs =>
        flat_map (fun f =>
                    if is_object view (shape f)
                    then lit (name f)
                         :: map (Join (lit (name f)))
                                (PathsAt view (level (PrevAt (Some d))) (shape f))
                    else [lit (name f)]) fs
    end.
Proof.
  intros d T Hd. rewrite (Prev_level Hd). reflexivity.
Qed.

(** The depth argument bounds the number of joins, on any carrier: a
    member returned at level [lv] has fewer than [lv] dots. *)
Hypothesis dot_free_keys : forall T fs f,
  view T = KRecordOf fs -> In f fs -> dot_free (name f) = true.

Lemma PathsAt_joins : forall lv T p,
  In p (PathsAt view lv T) -> joins p < lv.
Proof.
  induction lv as [|lv IH]; intros T p H; simpl in H; [contradiction|].
  assert (Step : forall K U q,
             joins K = 0 ->
             In q (if is_object view U
                   then K :: map (Join K) (PathsAt view lv U)
                   else [K]) ->
             joins q < S lv).
  { intros K U q HK Hq. destruct (is_object view U).
    - destruct Hq as [<-|Hq]; [lia|].
      apply in_map_iff in Hq. destruct Hq as [q' [<- Hq']].
      rewrite joins_Join, HK. apply IH in Hq'. lia.
    - destruct Hq as [<-|[]]. lia. }
  destruct (view T) as [id [|]|ro U|fs] eqn:V.
  - contradiction.
  - destruct H as [<-|[]]. cbv. lia.
  - apply (Step [Num] U); [reflexivity|exact H].
  - apply in_flat_map in H. destruct H as [f [Hf Hp]].
    apply (Step (lit (name f)) (shape f)); [|exact Hp].
    apply joins_lit. eapply dot_free_keys; eassumption.
Qed.
End Resolve.

(** ** Paths against PathValue *)

Lemma member_record : forall fs f,
  distinct (map (@name Shape) fs) = true -> In f fs ->
  member classify (RecordOf fs) (name f) = Some (shape f).
Proof.
  intros fs f Hd Hf. unfold member. simpl.
  now rewrite get_field_distinct.
Qed.

Lemma lit_not_index : forall P q, lit P <> Num :: q.
Proof. intros [|c P] q; discriminate. Qed.

Lemma PathsAt_resolve : forall lv T P,
  well_named T = true ->
  is_object classify T = true ->
  In (lit P) (PathsAt classify lv T) ->
  exists U, PathValue classify T P = Some U.
Proof.
  induction lv as [|lv IH]; intros T P Hwf Hobj H; [contradiction|].
  destruct T as [id o|ro U|fs]; cbn [PathsAt classify] in H.
  - unfold is_object in Hobj. simpl in Hobj. subst o. contradiction.
  - exfalso. destruct (is_object classify U).
    + destruct H as [H|H]; [symmetry in H; now apply lit_not_index in H|].
      apply in_map_iff in H. destruct H as [q [H _]].
      symmetry in H. now apply lit_not_index in H.
    + destruct H as [H|[]]. symmetry in H. now apply lit_not_index in H.
  - apply in_flat_map in H. destruct H as [f [Hf Hp]].
    cbn [well_named] in Hwf. apply andb_prop in Hwf. destruct Hwf as [Hd Hall].
    rewrite forallb_forall in Hall. specialize (Hall f Hf).
    apply andb_prop in Hall. destruct Hall as [Hk Hsub].
    assert (Key : lit P = lit (name f) -> exists U, PathValue classify (RecordOf fs) P = Some U).
    { intros E. apply lit_inj in E. subst P. exists (shape f).
      rewrite PathValue_key by exact Hk. now apply member_record. }
    destruct (is_object classify (shape f)) eqn:O.
    + destruct Hp as [E|Hp]; [now apply Key|].
      apply in_map_iff in Hp. destruct Hp as [q [E Hq]].
      symmetry in E. apply lit_split in E. destruct E as [Q [-> ->]].
      rewrite PathValue_dot by exact Hk.
      rewrite member_record by assumption.
      now apply IH.
    + destruct Hp as [E|[]]. now apply Key.
Qed.

Lemma PathsAt_record_app : forall lv fs1 fs2,
  PathsAt classify lv (RecordOf (fs1 ++ fs2))
  = PathsAt classify lv (RecordOf fs1) ++ PathsAt classify lv (RecordOf fs2).
Proof.
  intros [|lv] fs1 fs2; [reflexivity|].
  cbn [PathsAt classify]. apply flat_map_app.
Qed.

(** Callable leaves pass through [DeepReadonly] and [DeepMutable] wherever
    they stand. *)
Lemma callable_kept : forall r T id,
  sub r T = Some (Leaf id true) ->
  sub r (DeepReadonly T) = Some (Leaf id true)
  /\ sub r (DeepMutable T) = Some (Leaf id true).
Proof.
  intros r T id H. split.
  - apply (sub_commutes DeepReadonly (@optional Shape) (fun _ => true) (fun _ => true)
             DeepReadonly_record DeepReadonly_array r) in H.
    exact H.
  - apply (sub_commutes DeepMutable (fun _ => false) (fun _ => false) (fun _ => false)
             DeepMutable_record DeepMutable_array r) in H.
    exact H.
Qed.

(** An array field of [T] whose key [D] lacks stays an array of the same
    kind, and its element is intersected with the whole of [D]. *)
Lemma DeepIntersection_array_field : forall fs ds k f ro E,
  get_field k fs = Some f ->
  shape f = ArrayOf ro E ->
  has_key k (map (@name Shape) ds) = false ->
  msub [child k] (DeepIntersection (RecordOf fs) (RecordOf ds))
  = Some (MArrayOf ro (DeepIntersection E (RecordOf ds))).
Proof.
  intros fs ds k f ro E Hk Hs Hd.
  rewrite (@DeepIntersection_own_field fs ds k f Hk Hd), Hs.
  destruct ro; reflexivity.
Qed.

(** ** The two compiler modes *)

Lemma DeepPartialIn_template : forall s X,
  field_template (DeepPartialIn s) X = DeepPartialIn s X.
Proof.
  intros s. induction X as [id o|ro U IH|fs _] using Shape_ind; simpl.
  - destruct o; reflexivity.
  - rewrite IH. destruct ro; reflexivity.
  - reflexivity.
Qed.

Lemma DeepRequiredIn_template : forall s X,
  field_template (DeepRequiredIn s) X = DeepRequiredIn s X.
Proof.
  intros s. induction X as [id o|ro U IH|fs _] using Shape_ind; simpl.
  - destruct o; reflexivity.
  - rewrite IH. destruct ro; reflexivity.
  - reflexivity.
Qed.

Lemma DeepPartialIn_record : forall s fs,
  DeepPartialIn s (RecordOf fs)
  = RecordOf (map (fun f => mkField (name f)
                                    (if s && optional f then shape f
                                     else DeepPartialIn s (shape f))
                                    true (readonly f)) fs).
Proof.
  intros s fs. simpl. f_equal. apply map_ext. intros f.
  now rewrite DeepPartialIn_template.
Qed.

Lemma DeepRequiredIn_record : forall s fs,
  DeepRequiredIn s (RecordOf fs)
  = RecordOf (map (fun f => mkField (name f)
                                    (if s && optional f then shape f
                                     else DeepRequiredIn s (shape f))
                                    false (readonly f)) fs).
Proof.
  intros s fs. simpl. f_equal. apply map_ext. intros f.
  now rewrite DeepRequiredIn_template.
Qed.

Lemma DeepPartialIn_array : forall s ro U,
  DeepPartialIn s (ArrayOf ro U) = ArrayOf ro (DeepPartialIn s U).
Proof. intros. simpl. now rewrite DeepPartialIn_template. Qed.

Lemma DeepRequiredIn_array : forall s ro U,
  DeepRequiredIn s (ArrayOf ro U) = ArrayOf ro (DeepRequiredIn s U).
Proof. intros. simpl. now rewrite DeepRequiredIn_template. Qed.

(** With the option off the definitions are those of the first part. *)
Lemma DeepPartialIn_off : forall T, DeepPartialIn false T = DeepPartial T.
Proof.
  induction T as [id o|ro U IH|fs IH] using Shape_ind.
  - destruct o; reflexivity.
  - rewrite DeepPartialIn_array, DeepPartial_array. now rewrite IH.
  - rewrite DeepPartialIn_record, DeepPartial_record. f_equal.
    apply map_fields_ext with (P := fun X => DeepPartialIn false X = DeepPartial X).
    + exact IH.
    + intros f Hf. simpl. now rewrite Hf.
Qed.

Lemma DeepRequiredIn_off : forall T, DeepRequiredIn false T = DeepRequired T.
Proof.
  induction T as [id o|ro U IH|fs IH] using Shape_ind.
  - destruct o; reflexivity.
  - rewrite DeepRequiredIn_array, DeepRequired_array. now rewrite IH.
  - rewrite DeepRequiredIn_record, DeepRequired_record. f_equal.
    apply map_fields_ext with (P := fun X => DeepRequiredIn false X = DeepRequired X).
    + exact IH.
    + intros f Hf. simpl. now rewrite Hf.
Qed.





Lemma map_fixed : forall (A : Type) (g : A -> A) (l : list A),
  map g l = l <-> forall x, In x l -> g x = x.
Proof.
  intros A g l. rewrite <- (map_id l) at 2. apply map_ext_in_iff.
Qed.

(** [DeepRequired] returns a shape as it is exactly when the shape has no
    optional field and no callable leaf, in either mode. *)
Lemma DeepRequiredIn_fixed : forall s T,
  DeepRequiredIn s T = T
  <-> all_fields (fun f => negb (optional f)) T = true /\ no_opaque T = true.
Proof.
  intros s. induction T as [id o|ro U IH|fs IH] using Shape_ind.
  - destruct o; cbn; split; try discriminate; try tauto.
    intros [_ H]. discriminate.
  - rewrite DeepRequiredIn_array. cbn [all_fields no_opaque]. rewrite <- IH.
    split; [now intros [= ->]|now intros ->].
  - rewrite DeepRequiredIn_record. cbn [all_fields no_opaque].
    rewrite Forall_forall in IH. rewrite !forallb_forall. split.
    + intros [= H]. rewrite map_fixed in H. split; intros f Hf.
      * specialize (H f Hf). destruct f as [k X o r]. cbn [name shape optional readonly] in *.
        injection H as HX Ho. subst o. rewrite andb_false_r in HX. cbn [negb andb].
        apply (IH _ Hf) in HX. apply HX.
      * specialize (H f Hf). destruct f as [k X o r]. cbn [name shape optional readonly] in *.
        injection H as HX Ho. subst o. rewrite andb_false_r in HX.
        apply (IH _ Hf) in HX. apply HX.
    + intros [Ha Hn]. f_equal. apply map_fixed. intros f Hf.
      specialize (Ha f Hf). specialize (Hn f Hf).
      apply andb_prop in Ha. destruct Ha as [Ho Ha]. apply negb_true_iff in Ho.
      destruct f as [k X o r]. cbn [name shape optional readonly] in *. subst o.
      rewrite andb_false_r. f_equal. apply (IH _ Hf). now split.
Qed.


(** ** The transforms one level at a time *)

Lemma kmap_id : forall (A : Type) (k : Kind A), kmap (fun x => x) k = k.
Proof.
  intros A [id o|ro U|fs]; cbn [kmap]; try reflexivity.
  f_equal. rewrite <- (map_id fs) at 2. apply map_ext. now intros [].
Qed.

(** On shapes the lazy views are one level of the recursive definitions. *)
Lemma DeepReadonly_view_classify : forall T,
  classify (DeepReadonly T) = kmap DeepReadonly (DeepReadonly_view classify T).
Proof.
  intros [id [|]|[|] U|fs]; cbn; try reflexivity.
  all: rewrite map_map; reflexivity.
Qed.

Lemma DeepMutable_view_classify : forall T,
  classify (DeepMutable T) = kmap DeepMutable (DeepMutable_view classify T).
Proof.
  intros [id [|]|[|] U|fs]; cbn; try reflexivity.
  all: rewrite map_map; reflexivity.
Qed.

Lemma staged_view_classify : forall (F : Shape -> Shape) opt s,
  (forall id, F (Leaf id false) = Leaf id false) ->
  (forall id, F (Leaf id true) = RecordOf []) ->
  (forall ro U, F (ArrayOf ro U) = ArrayOf ro (field_template F U)) ->
  (forall fs, F (RecordOf fs)
              = RecordOf (map (fun f => mkField (name f)
                                                (if s && optional f then shape f
                                                 else field_template F (shape f))
                                                opt (readonly f)) fs)) ->
  forall t, classify (force F t) = kmap (force F) (staged_view classify s opt t).
Proof.
  intros F opt s Hp Hc Ha Hr [[| |] T]; unfold force, staged_view; cbn [fst snd].
  - destruct T as [id o|ro U|fs]; cbn [classify kmap]; try reflexivity.
    f_equal. rewrite map_map. rewrite <- (map_id fs) at 1.
    apply map_ext. now intros [].
  - unfold mapped_view. destruct T as [id [|]|ro U|fs]; cbn [classify].
    + now rewrite Hc.
    + now rewrite Hp.
    + now rewrite Ha.
    + rewrite Hr. cbn [classify kmap]. f_equal. rewrite map_map.
      apply map_ext. intros f. cbn [name shape optional readonly].
      destruct (s && optional f); reflexivity.
  - unfold template_view, mapped_view. destruct T as [id [|]|ro U|fs]; cbn [classify field_template].
    + now rewrite Hc.
    + reflexivity.
    + destruct ro; reflexivity.
    + rewrite Hr. cbn [classify kmap]. f_equal. rewrite map_map.
      apply map_ext. intros f. cbn [name shape optional readonly].
      destruct (s && optional f); reflexivity.
Qed.

Lemma DeepPartial_view_classify : forall s t,
  classify (force (DeepPartialIn s) t)
  = kmap (force (DeepPartialIn s)) (DeepPartial_view classify s t).
Proof.
  intros s t. apply staged_view_classify; try reflexivity.
Qed.

Lemma DeepRequired_view_classify : forall s t,
  classify (force (DeepRequiredIn s) t)
  = kmap (force (DeepRequiredIn s)) (DeepRequired_view classify s t).
Proof.
  intros s t. apply staged_view_classify; try reflexivity.
Qed.

Section Descents.
Variable node : Type.
Variable view : node -> Kind node.



Variable strict : bool.



Variable D : node.


End Descents.

Lemma part_eq_nothing : forall (N : Type) (p : part N), p = nothing \/ p <> nothing.
Proof. intros N []; (now left) || (right; discriminate). Qed.

Lemma reify_not_never : forall D p, p <> nothing -> reify D p <> MNever.
Proof.
  intros D p Hp.
  assert (W : forall X, DeepIntersection X D <> MNever).
  { intros X. destruct X as [id [|]|ro U|fs]; destruct D as [id' [|]|ro' U'|ds];
      cbn; discriminate. }
  destruct p as [X|X|X|X|X| |a b]; cbn [reify]; try discriminate.
  - apply W.
  - destruct X as [id [|]|ro U|fs]; discriminate.
  - destruct D as [id' [|]|ro' U'|ds]; discriminate.
  - destruct X as [id [|]|[|] U|fs]; cbn [inter_template]; try discriminate; apply W.
  - contradiction.
Qed.

Lemma both_MBoth : forall X Y, X <> MNever -> Y <> MNever -> both X Y = MBoth X Y.
Proof. intros [] []; cbn; intros; try reflexivity; contradiction. Qed.

Lemma reify_part_meet : forall D a b,
  reify D (part_meet a b) = both (reify D a) (reify D b).
Proof.
  intros D a b.
  destruct (part_eq_nothing a) as [->|Ha]; [reflexivity|].
  destruct (part_eq_nothing b) as [->|Hb].
  - rewrite both_never. destruct a; reflexivity.
  - rewrite both_MBoth by (apply reify_not_never; assumption).
    destruct a; destruct b; try reflexivity; contradiction.
Qed.

Lemma reify_level_meet : forall D a b fa fb,
  reify_level D (level_meet a b (KRecordOf fa) (KRecordOf fb))
  = meet (reify_level D (LKind (KRecordOf fa))) (reify_level D (LKind (KRecordOf fb))).
Proof.
  intros D a b fa fb. cbn [level_meet reify_level meet]. f_equal.
  rewrite map_app. f_equal.
  - rewrite !map_map. apply map_ext. intros f. cbn [name].
    rewrite get_field_map by reflexivity.
    destruct (get_field (name f) fb) as [g|]; cbn [option_map name shape optional readonly];
      [|reflexivity].
    now rewrite reify_part_meet.
  - rewrite !map_map. cbn [name].
    induction fb as [|g fb IH]; [reflexivity|]. cbn [filter map name].
    destruct (negb (has_key (name g) (map (@name (part Shape)) fa)));
      cbn [map]; now rewrite IH.
Qed.

Lemma reify_first_view : forall D T,
  reify_level D (LKind (first_view classify false T)) = first_of T D.
Proof.
  intros D T. destruct T as [id [|]|ro U|fs]; try reflexivity.
  cbn. f_equal. rewrite map_map. reflexivity.
Qed.

Lemma reify_second_view : forall D T,
  reify_level D (LKind (second_view classify D T)) = additional T D.
Proof.
  intros D T. destruct D as [id [|]|ro U|ds]; try reflexivity.
  - destruct T; reflexivity.
  - cbn. f_equal. rewrite map_map. apply map_ext. intros d. cbn.
    replace (keys classify T) with (keyof T) by (destruct T as [? [|]| |]; reflexivity).
    now destruct (has_key (name d) (keyof T)).
Qed.

Lemma reify_whole : forall D T,
  reify_level D (DeepIntersection_view classify false D (whole T)) = DeepIntersection T D.
Proof.
  intros D T.
  assert (U : DeepIntersection T D = meet (first_of T D) (additional T D))
    by (destruct T; reflexivity).
  rewrite U, <- reify_first_view, <- reify_second_view.
  cbn [DeepIntersection_view].
  destruct (first_view classify false T) as [i o|ro E|fa] eqn:A;
    destruct (second_view classify D T) as [i' o'|ro' E'|fb] eqn:B;
    try apply reify_level_meet;
    cbn [level_meet reify_level meet];
    (rewrite both_MBoth;
     [f_equal; cbn [reify];
      [rewrite <- reify_first_view, A|rewrite <- reify_second_view, B]; reflexivity
     |discriminate|discriminate]).
Qed.

(** On shapes, with [strictNullChecks] off, the lazy view of
    [DeepIntersection] is one level of the recursive definition. *)
Lemma DeepIntersection_view_reify : forall D T,
  reify_level D (DeepIntersection_view classify false D (whole T)) = DeepIntersection T D
  /\ reify_level D (DeepIntersection_view classify false D (own T))
     = inter_template (fun X => DeepIntersection X D) T.
Proof.
  intros D T. split; [apply reify_whole|].
  destruct T as [id [|]|[|] U|fs]; try reflexivity; apply reify_whole.
Qed.

(** ** The claims *)

(** C1 (the code departs from its own remark).  On
    [primary = {a: int}] and [secondary = {a: string, b: bool}] the result
    of [DeepIntersection] has [b: bool] appended unchanged, but its field
    [a] is [never], not [int]: the second mapped type keeps the key [a]
    with type [never], and the intersection meets it with [int]. *)
Theorem DeepIntersection_conflict_example :
  DeepIntersection primary secondary
  = MRecordOf [plain "a" MNever; plain "b" (MShape bool_)]
  /\ DeepIntersection primary secondary
     <> MRecordOf [plain "a" (MShape int_); plain "b" (MShape bool_)].
Proof. split; [reflexivity|discriminate]. Qed.

(** C2, as amended.  For a shape that is not a bare primitive and whose
    records have pairwise distinct keys without dots, every literal member
    of [Paths<T, D>] is resolved by [PathValue], for every depth literal
    [D] of [Prev]. *)
Theorem PathValue_Paths : forall T D P,
  well_named T = true ->
  is_object classify T = true ->
  D < List.length Prev ->
  In (lit P) (Paths classify T D) ->
  exists U, PathValue classify T P = Some U.
Proof.
  intros T D P Hwf Hobj _ H. unfold Paths, level in H.
  now apply PathsAt_resolve with (lv := S D).
Qed.

Lemma PathValue_Paths_witness :
  exists U, PathValue classify User "profile.address.city" = Some U.
Proof.
  apply (@PathValue_Paths User 5 "profile.address.city").
  - reflexivity.
  - reflexivity.
  - simpl. lia.
  - vm_compute. tauto.
Defined.

(** C2, as stated, fails: the key ["a.b"] is a member of [Paths], and
    [PathValue] splits it at the dot and finds no key ["a"]. *)
Lemma PathValue_dotted_key :
  In (lit "a.b") (Paths classify dotted 5)
  /\ PathValue classify dotted "a.b" = None.
Proof. split; [left; reflexivity|reflexivity]. Qed.

(** The same law fails at an array: [tags.${number}] is a member of
    [Paths], and no index resolves because an array has no record key. *)
Example PathValue_array_index :
  In (Join (lit "tags") [Num]) (Paths classify tagged 5)
  /\ PathValue classify tagged "tags.0" = None.
Proof. split; [right; left; reflexivity|reflexivity]. Qed.

(** And at a bare primitive, whose only path is the empty string. *)
Example PathValue_bare_leaf :
  In (lit "") (Paths classify string_ 5) /\ PathValue classify string_ "" = None.
Proof. split; [left; reflexivity|reflexivity]. Qed.

(** C3 (the code departs from its sibling aliases).  [DeepReadonly] and
    [DeepMutable] return the callable field [run] unchanged; [DeepPartial]
    and [DeepRequired] have no [Function] guard, take the callable for an
    object and map it to the object type without properties. *)
Theorem callable_field_example :
  DeepPartial handlers = RecordOf [mkField "run" (RecordOf []) true false]
  /\ DeepRequired handlers = RecordOf [mkField "run" (RecordOf []) false false]
  /\ DeepReadonly handlers = RecordOf [mkField "run" callback_ false true]
  /\ DeepMutable handlers = RecordOf [mkField "run" callback_ false false].
Proof. repeat split. Qed.




(** C5, as amended.  On the self-referential record [Loop], and on any
    carrier of shapes with or without cycles, [Paths<T, 2>] is a finite
    list; on [Loop] it is [self], [self.self] and [self.self.self], and in
    general each member has at most three segments (two joins) when no key
    contains a dot. *)
Theorem Paths_depth_2 :
  Paths Loop tt 2 = map lit ["self"; "self.self"; "self.self.self"]
  /\ forall (node : Type) (view : node -> Kind node) (T : node) (p : template),
       (forall X fs f, view X = KRecordOf fs -> In f fs -> dot_free (name f) = true) ->
       In p (Paths view T 2) -> segments p <= 3.
Proof.
  split; [reflexivity|].
  intros node view T p Hkeys H. unfold Paths, level in H.
  apply PathsAt_joins in H; [|exact Hkeys].
  unfold segments. lia.
Qed.

Lemma Paths_depth_2_witness : segments (lit "self.self.self") <= 3.
Proof.
  apply (proj2 Paths_depth_2 unit Loop tt).
  - intros X fs f E Hf. injection E as <-.
    destruct Hf as [<-|[]]. reflexivity.
  - right. right. left. reflexivity.
Defined.

(** C5, as stated, fails: [self.self.self] is a member of [Paths<Loop, 2>]
    and has three segments. *)
Lemma Paths_Loop_third_segment :
  ~ (forall p, In p (Paths Loop tt 2) -> segments p <= 2).
Proof.
  intros H. specialize (H (lit "self.self.self")).
  assert (M : In (lit "self.self.self") (Paths Loop tt 2)).
  { right. right. left. reflexivity. }
  apply H in M. vm_compute in M. lia.
Qed.




(** C7.  For a record without callable leaves, [DeepMutable] after
    [DeepReadonly] is [DeepMutable]; and in [DeepMutable<T>] every field at
    every depth is neither readonly nor optional, whatever it was in [T]. *)
Theorem DeepMutable_resets : forall T,
  is_record T = true ->
  no_opaque T = true ->
  DeepMutable (DeepReadonly T) = DeepMutable T
  /\ all_fields (fun f => negb (readonly f) && negb (optional f)) (DeepMutable T) = true.
Proof.
  intros T _ _. split.
  - apply DeepMutable_DeepReadonly.
  - apply DeepMutable_flags.
Qed.

Lemma DeepMutable_resets_witness :
  DeepMutable (DeepReadonly draft) = DeepMutable draft
  /\ all_fields (fun f => negb (readonly f) && negb (optional f)) (DeepMutable draft) = true.
Proof. apply (@DeepMutable_resets draft); reflexivity. Defined.

(** C8, as amended.  An array field is not transparent: under a field [k]
    of shape [ArrayOf ro E] the members of [Paths] are [k], [k.${number}]
    and, when [E] is an object, [k.${number}.p] for every member [p] of the
    paths of [E] two depth literals lower; the paths of the other fields
    stand before and after, unaffected.  Under the strict compiler an
    optional array field contributes [k] alone. *)
Theorem Paths_array_field : forall strict fs1 fs2 k opt rdo ro E D,
  S (S D) < List.length Prev ->
  PathsIn classify strict (RecordOf (fs1 ++ mkField k (ArrayOf ro E) opt rdo :: fs2)) (S (S D))
  = PathsIn classify strict (RecordOf fs1) (S (S D))
    ++ (lit k
        :: if strict && opt then []
           else Join (lit k) [Num]
                :: map (fun p => Join (lit k) (Join [Num] p))
                       (if is_object classify E then PathsIn classify strict E D else []))
    ++ PathsIn classify strict (RecordOf fs2) (S (S D)).
Proof.
  intros strict fs1 fs2 k opt rdo ro E D _. unfold PathsIn, level.
  assert (App : forall lv l1 l2,
             PathsAtIn classify strict lv (RecordOf (l1 ++ l2))
             = PathsAtIn classify strict lv (RecordOf l1)
               ++ PathsAtIn classify strict lv (RecordOf l2)).
  { intros [|lv] l1 l2; [reflexivity|]. cbn [PathsAtIn classify]. apply flat_map_app. }
  rewrite App. f_equal.
  change (mkField k (ArrayOf ro E) opt rdo :: fs2)
    with ([mkField k (ArrayOf ro E) opt rdo] ++ fs2).
  rewrite App. f_equal.
  cbn [PathsAtIn classify flat_map name shape optional]. rewrite app_nil_r.
  change (is_object classify (ArrayOf ro E)) with true. cbn [andb].
  destruct (strict && opt); cbn [negb]; [reflexivity|].
  destruct (is_object classify E).
  - cbn [map]. rewrite map_map. reflexivity.
  - reflexivity.
Qed.

Lemma Paths_array_field_witness :
  PathsIn classify true tagged 5
  = [lit "tags"; Join (lit "tags") [Num]; Join (lit "tags") (Join [Num] (lit "n"))].
Proof.
  apply (@Paths_array_field true [] [] "tags" false false false
           (RecordOf [plain "n" string_]) 3).
  simpl. lia.
Defined.

(** C8, as stated, fails: the path [n] of the element does not appear
    directly under [tags], and the index segment [tags.${number}] does
    appear. *)
Lemma Paths_array_index_segment :
  ~ In (lit "tags.n") (Paths classify tagged 5)
  /\ In (Join (lit "tags") [Num]) (Paths classify tagged 5).
Proof.
  split.
  - vm_compute. intros [H|[H|[H|[]]]]; discriminate.
  - right. left. reflexivity.
Qed.

(** C9, as amended.  Invoked directly, [Paths] returns exactly the empty
    string on a primitive leaf, and no path at all on an empty record and
    on a callable leaf. *)
Theorem Paths_trivial : forall id D,
  Paths classify (Leaf id false) D = [lit ""]
  /\ Paths classify (RecordOf []) D = []
  /\ Paths classify (Leaf id true) D = [].
Proof. intros id D. repeat split. Qed.

(** C9, as stated, fails: on the empty record [Paths] is empty, it does
    not hold the empty string. *)
Lemma Paths_empty_record : Paths classify (RecordOf []) 5 <> [lit ""].
Proof. discriminate. Qed.

(** C10 (the code departs from its own remark; the defect is that of C1).
    The array field [a] of [listed], whose key [secondary] has too, does
    not come out as an array of intersected elements: it is [never]. *)
Theorem DeepIntersection_array_conflict_example :
  msub [child "a"] (DeepIntersection listed secondary) = Some MNever
  /\ msub [child "a"] (DeepIntersection listed secondary)
     <> Some (MArrayOf false (DeepIntersection int_ secondary)).
Proof. split; [reflexivity|discriminate]. Qed.


(** ** Further properties: ElementOf and Flat *)

(** Taking the element of an array commutes with [DeepReadonly],
    [DeepMutable] and, in both compiler modes, [DeepRequired]; a shape that
    is no array has no element before or after. *)
Theorem ElementOf_transforms : forall strict T,
  ElementOf (DeepReadonly T) = option_map DeepReadonly (ElementOf T)
  /\ ElementOf (DeepMutable T) = option_map DeepMutable (ElementOf T)
  /\ ElementOf (DeepRequiredIn strict T)
     = option_map (DeepRequiredIn strict) (ElementOf T).
Proof.
  intros strict [id [|]|ro U|fs]; repeat split; try reflexivity.
  - destruct ro; reflexivity.
  - destruct ro; reflexivity.
  - rewrite DeepRequiredIn_array. reflexivity.
Qed.



(** [Flat] commutes with [DeepMutable] and, in both compiler modes, with
    [DeepRequired].  After [DeepReadonly] it still returns a mutable array,
    whose element is the [DeepReadonly] of the flattened element. *)
Theorem Flat_transforms : forall strict T,
  Flat (DeepMutable T) = option_map DeepMutable (Flat T)
  /\ Flat (DeepRequiredIn strict T) = option_map (DeepRequiredIn strict) (Flat T)
  /\ Flat (DeepReadonly T)
     = match Flat T with
       | Some (ArrayOf _ E) => Some (ArrayOf false (DeepReadonly E))
       | _ => None
       end.
Proof.
  intros strict [id [|]|ro E|fs]; repeat split; try reflexivity.
  - rewrite DeepMutable_array. cbn [Flat option_map].
    rewrite DeepMutable_array.
    destruct E as [id [|]|ro' V|fs]; try reflexivity.
    rewrite DeepMutable_array. reflexivity.
  - rewrite DeepRequiredIn_array. cbn [Flat option_map].
    rewrite DeepRequiredIn_array.
    destruct E as [id [|]|ro' V|fs]; try reflexivity.
    rewrite DeepRequiredIn_array. reflexivity.
  - rewrite DeepReadonly_array. cbn [Flat].
    destruct E as [id [|]|ro' V|fs]; try reflexivity.
    rewrite DeepReadonly_array. reflexivity.
Qed.

(** ** Further properties: the flag transforms *)

Lemma forallb_map_fields :
  forall (p : Field Shape -> bool) (g : Field Shape -> Field Shape) fs,
    forallb p (map g fs) = forallb (fun f => p (g f)) fs.
Proof.
  intros p g fs. induction fs as [|f fs IH]; simpl; [reflexivity|now rewrite IH].
Qed.

Lemma forallb_fields :
  forall (p : Field Shape -> bool) (P : Shape -> Prop) fs,
    Forall (fun f => P (shape f)) fs ->
    (forall f, P (shape f) -> p f = true) ->
    forallb p fs = true.
Proof.
  intros p P fs Hall Hp. induction Hall as [|f fs Hf _ IH]; simpl.
  - reflexivity.
  - now rewrite (Hp f Hf), IH.
Qed.

Lemma flags_after : forall T,
  all_fields (@optional Shape) (DeepPartial T) = true
  /\ all_fields (fun f => negb (optional f)) (DeepRequired T) = true
  /\ all_fields (@readonly Shape) (DeepReadonly T) = true
  /\ all_arrays (fun ro => ro) (DeepReadonly T) = true
  /\ all_arrays negb (DeepMutable T) = true.
Proof.
  intros T. repeat split.
  - induction T as [id o|ro U IH|fs IH] using Shape_ind.
    + destruct o; reflexivity.
    + rewrite DeepPartial_array. exact IH.
    + rewrite DeepPartial_record. cbn [all_fields]. rewrite forallb_map_fields.
      apply forallb_fields with (P := fun X => all_fields (@optional Shape) (DeepPartial X) = true).
      * exact IH.
      * intros f Hf. exact Hf.
  - induction T as [id o|ro U IH|fs IH] using Shape_ind.
    + destruct o; reflexivity.
    + rewrite DeepRequired_array. exact IH.
    + rewrite DeepRequired_record. cbn [all_fields]. rewrite forallb_map_fields.
      apply forallb_fields
        with (P := fun X => all_fields (fun f => negb (optional f)) (DeepRequired X) = true).
      * exact IH.
      * intros f Hf. exact Hf.
  - induction T as [id o|ro U IH|fs IH] using Shape_ind.
    + destruct o; reflexivity.
    + rewrite DeepReadonly_array. exact IH.
    + rewrite DeepReadonly_record. cbn [all_fields]. rewrite forallb_map_fields.
      apply forallb_fields with (P := fun X => all_fields (@readonly Shape) (DeepReadonly X) = true).
      * exact IH.
      * intros f Hf. exact Hf.
  - induction T as [id o|ro U IH|fs IH] using Shape_ind.
    + destruct o; reflexivity.
    + rewrite DeepReadonly_array. exact IH.
    + rewrite DeepReadonly_record. cbn [all_arrays]. rewrite forallb_map_fields.
      apply forallb_fields with (P := fun X => all_arrays (fun ro => ro) (DeepReadonly X) = true).
      * exact IH.
      * intros f Hf. exact Hf.
  - induction T as [id o|ro U IH|fs IH] using Shape_ind.
    + destruct o; reflexivity.
    + rewrite DeepMutable_array. exact IH.
    + rewrite DeepMutable_record. cbn [all_arrays]. rewrite forallb_map_fields.
      apply forallb_fields with (P := fun X => all_arrays negb (DeepMutable X) = true).
      * exact IH.
      * intros f Hf. exact Hf.
Qed.

Lemma flags_after_In : forall strict T,
  strict = false \/ all_fields (fun f => negb (optional f)) T = true ->
  all_fields (@optional Shape) (DeepPartialIn strict T) = true
  /\ all_fields (fun f => negb (optional f)) (DeepRequiredIn strict T) = true.
Proof.
  intros strict. induction T as [id o|ro U IH|fs IH] using Shape_ind; intros H.
  - destruct o; split; reflexivity.
  - rewrite DeepPartialIn_array, DeepRequiredIn_array. cbn [all_fields].
    apply IH. exact H.
  - rewrite DeepPartialIn_record, DeepRequiredIn_record. cbn [all_fields].
    rewrite !forallb_map_fields. rewrite Forall_forall in IH.
    assert (K : forall f, In f fs ->
                  strict && optional f = false
                  /\ (strict = false
                      \/ all_fields (fun f => negb (optional f)) (shape f) = true)).
    { intros f Hf. destruct H as [->|H]; [split; [reflexivity|now left]|].
      cbn [all_fields] in H. rewrite forallb_forall in H. specialize (H f Hf).
      apply andb_prop in H. destruct H as [Ho Hs]. apply negb_true_iff in Ho.
      rewrite Ho, andb_false_r. split; [reflexivity|now right]. }
    split; apply forallb_forall; intros f Hf; cbn [optional shape negb andb];
      destruct (K f Hf) as [-> Hs]; apply (IH f Hf Hs).
Qed.

(** At every depth [DeepReadonly] leaves only readonly fields and readonly
    arrays and [DeepMutable] only mutable arrays.  [DeepPartial] leaves
    only optional fields and [DeepRequired] only required ones when
    [strictNullChecks] is off, and under the strict compiler when the
    argument has no optional field. *)
Theorem transforms_set_flags : forall strict T,
  all_fields (@readonly Shape) (DeepReadonly T) = true
  /\ all_arrays (fun ro => ro) (DeepReadonly T) = true
  /\ all_arrays negb (DeepMutable T) = true
  /\ (strict = false \/ all_fields (fun f => negb (optional f)) T = true ->
      all_fields (@optional Shape) (DeepPartialIn strict T) = true
      /\ all_fields (fun f => negb (optional f)) (DeepRequiredIn strict T) = true).
Proof.
  intros strict T. repeat split; try apply flags_after.
  - now apply flags_after_In.
  - now apply flags_after_In.
Qed.

Lemma transforms_set_flags_witness :
  all_fields (@optional Shape) (DeepPartialIn true User) = true
  /\ all_fields (fun f => negb (optional f)) (DeepRequiredIn true User) = true.
Proof.
  apply (proj2 (proj2 (proj2 (transforms_set_flags true User)))).
  right. reflexivity.
Defined.



(** In both compiler modes [DeepRequired] returns a shape as it is exactly
    when the shape has, at every depth, no optional field and no callable
    leaf. *)
Theorem DeepRequired_fixed_points : forall strict T,
  DeepRequiredIn strict T = T
  <-> all_fields (fun f => negb (optional f)) T = true /\ no_opaque T = true.
Proof. intros strict T. apply DeepRequiredIn_fixed. Qed.

Lemma last_flag_wins : forall T,
  DeepRequired (DeepPartial T) = DeepRequired T
  /\ DeepPartial (DeepRequired T) = DeepPartial T.
Proof.
  intros T. split.
  - induction T as [id o|ro U IH|fs IH] using Shape_ind.
    + destruct o; reflexivity.
    + rewrite DeepPartial_array, !DeepRequired_array. now rewrite IH.
    + rewrite DeepPartial_record, !DeepRequired_record, map_map. f_equal.
      apply map_fields_ext with (P := fun X => DeepRequired (DeepPartial X) = DeepRequired X).
      * exact IH.
      * intros f Hf. simpl. now rewrite Hf.
  - induction T as [id o|ro U IH|fs IH] using Shape_ind.
    + destruct o; reflexivity.
    + rewrite DeepRequired_array, !DeepPartial_array. now rewrite IH.
    + rewrite DeepRequired_record, !DeepPartial_record, map_map. f_equal.
      apply map_fields_ext with (P := fun X => DeepPartial (DeepRequired X) = DeepPartial X).
      * exact IH.
      * intros f Hf. simpl. now rewrite Hf.
Qed.

(** With [strictNullChecks] off, [DeepPartial] and [DeepRequired] undo each
    other's flag: of the two, the one applied last decides. *)
Theorem DeepPartial_DeepRequired : forall T,
  DeepRequiredIn false (DeepPartialIn false T) = DeepRequiredIn false T
  /\ DeepPartialIn false (DeepRequiredIn false T) = DeepPartialIn false T.
Proof.
  intros T. rewrite ?DeepPartialIn_off, ?DeepRequiredIn_off, ?DeepPartialIn_off.
  apply last_flag_wins.
Qed.

(** Under the strict compiler the law fails: [DeepRequired] copies what
    [DeepPartial] has made optional. *)
Example DeepRequired_after_DeepPartial_strict :
  DeepRequiredIn true (DeepPartialIn true User) <> DeepRequiredIn true User.
Proof. discriminate. Qed.

(** [DeepReadonly] commutes with [DeepPartial] and with [DeepRequired]:
    the two flags are set independently, callable leaves included. *)
Theorem DeepReadonly_commutes : forall T,
  DeepReadonly (DeepPartial T) = DeepPartial (DeepReadonly T)
  /\ DeepReadonly (DeepRequired T) = DeepRequired (DeepReadonly T).
Proof.
  intros T. split.
  - induction T as [id o|ro U IH|fs IH] using Shape_ind.
    + destruct o; reflexivity.
    + rewrite DeepPartial_array, !DeepReadonly_array, DeepPartial_array. now rewrite IH.
    + rewrite DeepPartial_record, !DeepReadonly_record, DeepPartial_record, !map_map.
      f_equal.
      apply map_fields_ext
        with (P := fun X => DeepReadonly (DeepPartial X) = DeepPartial (DeepReadonly X)).
      * exact IH.
      * intros f Hf. simpl. now rewrite Hf.
  - induction T as [id o|ro U IH|fs IH] using Shape_ind.
    + destruct o; reflexivity.
    + rewrite DeepRequired_array, !DeepReadonly_array, DeepRequired_array. now rewrite IH.
    + rewrite DeepRequired_record, !DeepReadonly_record, DeepRequired_record, !map_map.
      f_equal.
      apply map_fields_ext
        with (P := fun X => DeepReadonly (DeepRequired X) = DeepRequired (DeepReadonly X)).
      * exact IH.
      * intros f Hf. simpl. now rewrite Hf.
Qed.

Lemma mutable_absorbs : forall T,
  no_opaque T = true ->
  DeepMutable (DeepPartial T) = DeepMutable T
  /\ DeepMutable (DeepRequired T) = DeepMutable T.
Proof.
  induction T as [id o|ro U IH|fs IH] using Shape_ind; intros H.
  - destruct o; [discriminate|split; reflexivity].
  - rewrite DeepPartial_array, DeepRequired_array, !DeepMutable_array.
    destruct (IH H) as [-> ->]. split; reflexivity.
  - rewrite DeepPartial_record, DeepRequired_record, !DeepMutable_record, !map_map.
    cbn [no_opaque] in H. rewrite forallb_forall in H. rewrite Forall_forall in IH.
    split; f_equal; apply map_ext_in; intros f Hf; simpl;
      destruct (IH f Hf (H f Hf)) as [E1 E2]; now rewrite ?E1, ?E2.
Qed.

Lemma mutable_absorbs_required : forall strict T,
  no_opaque T = true ->
  DeepMutable (DeepRequiredIn strict T) = DeepMutable T.
Proof.
  intros strict. induction T as [id o|ro U IH|fs IH] using Shape_ind; intros H.
  - destruct o; [discriminate|reflexivity].
  - rewrite DeepRequiredIn_array, !DeepMutable_array. now rewrite IH.
  - rewrite DeepRequiredIn_record, !DeepMutable_record, map_map.
    cbn [no_opaque] in H. rewrite forallb_forall in H. rewrite Forall_forall in IH.
    f_equal. apply map_ext_in. intros f Hf. cbn [name shape].
    destruct (strict && optional f); [reflexivity|].
    now rewrite (IH f Hf (H f Hf)).
Qed.

(** On a shape without callable leaves [DeepMutable] absorbs an earlier
    [DeepRequired] in both compiler modes, and an earlier [DeepPartial]
    when [strictNullChecks] is off. *)
Theorem DeepMutable_absorbs : forall strict T,
  no_opaque T = true ->
  DeepMutable (DeepRequiredIn strict T) = DeepMutable T
  /\ DeepMutable (DeepPartialIn false T) = DeepMutable T.
Proof.
  intros strict T H. split.
  - now apply mutable_absorbs_required.
  - rewrite DeepPartialIn_off. now apply mutable_absorbs.
Qed.

Lemma DeepMutable_absorbs_witness :
  DeepMutable (DeepRequiredIn true FrozenUser) = DeepMutable FrozenUser
  /\ DeepMutable (DeepPartialIn false FrozenUser) = DeepMutable FrozenUser.
Proof. apply (@DeepMutable_absorbs true FrozenUser). reflexivity. Defined.

(** The hypothesis is needed: a callable field is kept by [DeepMutable] and
    lost by [DeepRequired]. *)
Example callable_not_absorbed :
  DeepMutable (DeepRequiredIn true handlers) <> DeepMutable handlers.
Proof. discriminate. Qed.

Lemma map_fields_id :
  forall (g : Field Shape -> Field Shape) fs,
    (forall f, In f fs -> g f = f) -> map g fs = fs.
Proof.
  intros g fs H. rewrite <- (map_id fs) at 2. now apply map_ext_in.
Qed.

(** The shapes [DeepMutable] leaves alone are exactly those whose fields
    are all required and not readonly and whose arrays are all mutable; the
    shapes [DeepReadonly] leaves alone are exactly those whose fields and
    arrays are all readonly. *)
Theorem transforms_fixed_points : forall T,
  (DeepMutable T = T
   <-> all_fields (fun f => negb (readonly f) && negb (optional f)) T = true
       /\ all_arrays negb T = true)
  /\ (DeepReadonly T = T
      <-> all_fields (@readonly Shape) T = true
          /\ all_arrays (fun ro => ro) T = true).
Proof.
  intros T. split; split.
  - intros E. rewrite <- E. split.
    + apply DeepMutable_flags.
    + apply flags_after.
  - induction T as [id o|ro U IH|fs IH] using Shape_ind; intros [Hf Ha].
    + destruct o; reflexivity.
    + rewrite DeepMutable_array. cbn [all_fields all_arrays] in *.
      apply andb_prop in Ha. destruct Ha as [Hro Ha].
      destruct ro; [discriminate|]. now rewrite IH.
    + rewrite DeepMutable_record. f_equal. apply map_fields_id. intros f Hin.
      cbn [all_fields all_arrays] in *.
      rewrite forallb_forall in Hf, Ha. rewrite Forall_forall in IH.
      specialize (Hf f Hin). specialize (Ha f Hin).
      apply andb_prop in Hf. destruct Hf as [Hflags Hf].
      apply andb_prop in Hflags. destruct Hflags as [Hr Ho].
      rewrite (IH f Hin (conj Hf Ha)).
      destruct f as [k X o r]. simpl in *.
      destruct o, r; try discriminate. reflexivity.
  - intros E. rewrite <- E. split; apply flags_after.
  - induction T as [id o|ro U IH|fs IH] using Shape_ind; intros [Hf Ha].
    + destruct o; reflexivity.
    + rewrite DeepReadonly_array. cbn [all_fields all_arrays] in *.
      apply andb_prop in Ha. destruct Ha as [Hro Ha].
      destruct ro; [|discriminate]. now rewrite IH.
    + rewrite DeepReadonly_record. f_equal. apply map_fields_id. intros f Hin.
      cbn [all_fields all_arrays] in *.
      rewrite forallb_forall in Hf, Ha. rewrite Forall_forall in IH.
      specialize (Hf f Hin). specialize (Ha f Hin).
      apply andb_prop in Hf. destruct Hf as [Hr Hf].
      rewrite (IH f Hin (conj Hf Ha)).
      destruct f as [k X o r]. simpl in *. now rewrite Hr.
Qed.

Lemma transforms_fixed_points_witness : DeepMutable User = User.
Proof.
  apply (proj2 (proj1 (transforms_fixed_points User))).
  split; reflexivity.
Defined.

(** ** Further properties: transforms against the path algebra *)

(** A transform that rewrites records field by field, arrays element by
    element, keeps primitives and turns a callable into a callable or into
    the object type without properties, changes neither the paths of a
    shape nor the route a path takes. *)
Section Skeleton.
Variable F : Shape -> Shape.
Variable opt rdo : Field Shape -> bool.
Variable arr : bool -> bool.
Hypothesis F_record : forall fs,
  F (RecordOf fs) = RecordOf (map (fun f => mkField (name f) (F (shape f)) (opt f) (rdo f)) fs).
Hypothesis F_array : forall ro U, F (ArrayOf ro U) = ArrayOf (arr ro) (F U).
Hypothesis F_primitive : forall id, F (Leaf id false) = Leaf id false.
Hypothesis F_callable : forall id,
  F (Leaf id true) = Leaf id true \/ F (Leaf id true) = RecordOf [].

Lemma is_object_kept : forall T, is_object classify (F T) = is_object classify T.
Proof.
  intros [id [|]|ro U|fs].
  - destruct (F_callable id) as [-> | ->]; reflexivity.
  - now rewrite F_primitive.
  - now rewrite F_array.
  - now rewrite F_record.
Qed.

Lemma PathsAt_kept : forall lv T,
  PathsAt classify lv (F T) = PathsAt classify lv T.
Proof.
  induction lv as [|lv IH]; intros T; [reflexivity|].
  destruct T as [id [|]|ro U|fs].
  - destruct (F_callable id) as [-> | ->]; reflexivity.
  - now rewrite F_primitive.
  - rewrite F_array. cbn [PathsAt classify].
    now rewrite is_object_kept, IH.
  - rewrite F_record. cbn [PathsAt classify].
    rewrite flat_map_concat_map, map_map, <- flat_map_concat_map.
    apply flat_map_ext. intros f. cbn [name shape].
    now rewrite is_object_kept, IH.
Qed.

Lemma member_kept : forall T K,
  member classify (F T) K = option_map F (member classify T K).
Proof.
  intros [id [|]|ro U|fs] K.
  - destruct (F_callable id) as [-> | ->]; reflexivity.
  - now rewrite F_primitive.
  - now rewrite F_array.
  - rewrite F_record. unfold member. cbn [classify].
    rewrite get_field_map by reflexivity.
    destruct (get_field K fs); reflexivity.
Qed.

Lemma PathValueFrom_kept : forall P T K,
  PathValueFrom classify (F T) K P = option_map F (PathValueFrom classify T K P).
Proof.
  induction P as [|c P IH]; intros T K; cbn [PathValueFrom].
  - apply member_kept.
  - destruct (Ascii.eqb c dot).
    + rewrite member_kept. destruct (member classify T K); [apply IH|reflexivity].
    + apply IH.
Qed.
End Skeleton.

(** [DeepReadonly] changes no path: a shape and its readonly version have
    the same [Paths] at every depth literal. *)
Theorem Paths_DeepReadonly : forall T D,
  Paths classify (DeepReadonly T) D = Paths classify T D.
Proof.
  intros T D. unfold Paths.
  apply (@PathsAt_kept DeepReadonly (@optional Shape) (fun _ => true) (fun _ => true)).
  - exact DeepReadonly_record.
  - exact DeepReadonly_array.
  - reflexivity.
  - intros id. left. reflexivity.
Qed.






(** Under the strict compiler [DeepPartial] does change the paths: every
    key has become optional, and no path goes below an optional key. *)
Example Paths_DeepPartial_strict :
  PathsIn classify true (DeepPartialIn true User) 5 = [lit "id"; lit "profile"].
Proof. reflexivity. Qed.

Lemma descend_sub : forall req r T U,
  descend (total classify) req r T = Some U -> sub r T = Some U.
Proof.
  intros req. induction r as [|[k|] r IH]; intros T U H; cbn [descend sub] in *.
  - exact H.
  - unfold into, total in H. destruct T as [| |fs]; cbn [classify] in H; try discriminate.
    destruct (get_field k fs) as [f|]; [|discriminate].
    destruct (req && optional f); [discriminate|]. now apply IH.
  - unfold into, total in H. destruct T as [|ro V|]; cbn [classify] in H; try discriminate.
    now apply IH.
Qed.

Lemma PathValue_sub : forall ks k T,
  dot_free k = true ->
  forallb dot_free ks = true ->
  PathValue classify T (dotted_path k ks) = sub (map child (k :: ks)) T.
Proof.
  induction ks as [|k' ks IH]; intros k T Hk Hks.
  - cbn [dotted_path map]. rewrite PathValue_key by exact Hk.
    unfold member. destruct T as [| |fs]; try reflexivity.
    all: cbn [classify sub]; destruct (get_field k fs); reflexivity.
  - cbn [forallb] in Hks. apply andb_prop in Hks. destruct Hks as [Hk' Hks].
    cbn [dotted_path]. rewrite PathValue_dot by exact Hk.
    unfold member. destruct T as [| |fs]; try reflexivity.
    all: cbn [classify map sub]; destruct (get_field k fs) as [f|]; [|reflexivity].
    all: cbn [option_map]; now apply IH.
Qed.

Lemma sub_DeepRequiredIn : forall strict ks T U,
  descend (total classify) true (map child ks) T = Some U ->
  sub (map child ks) (DeepRequiredIn strict T) = Some (DeepRequiredIn strict U).
Proof.
  intros strict. induction ks as [|k ks IH]; intros T U H; cbn [map descend sub] in *.
  - now injection H as ->.
  - unfold into, total in H. destruct T as [| |fs]; cbn [classify] in H; try discriminate.
    rewrite DeepRequiredIn_record. rewrite get_field_map by reflexivity.
    destruct (get_field k fs) as [f|]; [|discriminate]. cbn [option_map shape].
    cbn [andb] in H. destruct (optional f); [discriminate|].
    rewrite andb_false_r. now apply IH.
Qed.

(** A path through required record fields resolves in [DeepReadonly<T>],
    [DeepMutable<T>] and, in both compiler modes, [DeepRequired<T>] to the
    transform of what the fields lead to in [T]; the keys contain no
    dot. *)
Theorem PathValue_transforms : forall strict ks k T U,
  dot_free k = true ->
  forallb dot_free ks = true ->
  descend (total classify) true (map child (k :: ks)) T = Some U ->
  PathValue classify (DeepReadonly T) (dotted_path k ks) = Some (DeepReadonly U)
  /\ PathValue classify (DeepMutable T) (dotted_path k ks) = Some (DeepMutable U)
  /\ PathValue classify (DeepRequiredIn strict T) (dotted_path k ks)
     = Some (DeepRequiredIn strict U).
Proof.
  intros strict ks k T U Hk Hks H.
  rewrite !PathValue_sub by assumption.
  pose proof (@descend_sub true _ T U H) as S. repeat split.
  - exact (@sub_commutes DeepReadonly (@optional Shape) (fun _ => true) (fun _ => true)
             DeepReadonly_record DeepReadonly_array _ T U S).
  - exact (@sub_commutes DeepMutable (fun _ => false) (fun _ => false) (fun _ => false)
             DeepMutable_record DeepMutable_array _ T U S).
  - exact (@sub_DeepRequiredIn strict (k :: ks) T U H).
Qed.

Lemma PathValue_transforms_witness :
  PathValue classify (DeepReadonly User) "profile.address" 
  = Some (DeepReadonly (RecordOf [plain "city" string_; plain "zip" number_]))
  /\ PathValue classify (DeepMutable User) "profile.address"
     = Some (DeepMutable (RecordOf [plain "city" string_; plain "zip" number_]))
  /\ PathValue classify (DeepRequiredIn true User) "profile.address"
     = Some (DeepRequiredIn true (RecordOf [plain "city" string_; plain "zip" number_])).
Proof.
  apply (@PathValue_transforms true ["address"] "profile" User
           (RecordOf [plain "city" string_; plain "zip" number_])); reflexivity.
Defined.

(** ** Further properties: DeepIntersection *)

Lemma names_filter : forall (N : Type) (K : list string) (ds : list (Field N)),
  map (@name N) (filter (fun d => negb (has_key (name d) K)) ds)
  = filter (fun k => negb (has_key k K)) (map (@name N) ds).
Proof.
  intros N K ds. induction ds as [|d ds IH]; simpl; [reflexivity|].
  destruct (negb (has_key (name d) K)); simpl; now rewrite IH.
Qed.

Lemma msub_app : forall r1 r2 M,
  msub (r1 ++ r2) M
  = match msub r1 M with
    | Some X => msub r2 X
    | None => None
    end.
Proof.
  induction r1 as [|[k|] r1 IH]; intros r2 M; cbn [app msub].
  - reflexivity.
  - destruct M; try reflexivity.
    destruct (get_field k fields); [apply IH|reflexivity].
  - destruct M; try reflexivity. apply IH.
Qed.

(** The keys of [DeepIntersection<T, D>] for two records are the keys of
    [T] in their order, followed by the keys of [D] that [T] lacks: every
    key of either operand, and no other. *)
Theorem DeepIntersection_keys : forall fs ds,
  map (@name Meet) (properties (DeepIntersection (RecordOf fs) (RecordOf ds)))
  = map (@name Shape) fs
    ++ filter (fun k => negb (has_key k (map (@name Shape) fs))) (map (@name Shape) ds)
  /\ forall k,
       In k (map (@name Meet) (properties (DeepIntersection (RecordOf fs) (RecordOf ds))))
       <-> In k (map (@name Shape) fs) \/ In k (map (@name Shape) ds).
Proof.
  intros fs ds.
  assert (E : map (@name Meet) (properties (DeepIntersection (RecordOf fs) (RecordOf ds)))
              = map (@name Shape) fs
                ++ filter (fun k => negb (has_key k (map (@name Shape) fs)))
                          (map (@name Shape) ds)).
  { rewrite DeepIntersection_record. cbn [properties].
    rewrite map_app. f_equal.
    - rewrite map_map. apply map_ext. intros f.
      destruct (get_field (name f) ds); reflexivity.
    - rewrite map_map. cbn [name]. apply names_filter. }
  split; [exact E|].
  intros k. rewrite E, in_app_iff, filter_In. split.
  - intros [H|[H _]]; tauto.
  - intros [H|H]; [tauto|].
    destruct (has_key k (map (@name Shape) fs)) eqn:K.
    + left. now apply has_key_true.
    + right. split; [exact H|reflexivity].
Qed.

(** A field that only [D] has is appended as it stands in [D]: the same
    type and the same two modifiers. *)
Theorem DeepIntersection_appends : forall fs ds k d,
  get_field k fs = None ->
  get_field k ds = Some d ->
  get_field k (properties (DeepIntersection (RecordOf fs) (RecordOf ds)))
  = Some (mkField k (MShape (shape d)) (optional d) (readonly d)).
Proof.
  intros fs ds k d Hk Hd. rewrite DeepIntersection_record. cbn [properties].
  rewrite get_field_app, get_field_map.
  - rewrite Hk. simpl. rewrite get_field_map by reflexivity.
    assert (E : get_field k (filter (fun d0 => negb (has_key (name d0) (map (@name Shape) fs))) ds)
                = Some d).
    { apply get_field_None in Hk. apply has_key_false in Hk.
      unfold get_field in *. clear - Hk Hd.
      induction ds as [|e ds IH]; simpl in *; [discriminate|].
      destruct (String.eqb (name e) k) eqn:E.
      - apply String.eqb_eq in E. rewrite E, Hk. simpl.
        rewrite E, String.eqb_refl. exact Hd.
      - destruct (negb (has_key (name e) (map (@name Shape) fs))); simpl.
        + rewrite E. now apply IH.
        + now apply IH. }
    rewrite E. simpl. destruct (get_field_name _ _ Hd) as [-> _]. reflexivity.
  - intros g. destruct (get_field (name g) ds); reflexivity.
Qed.

Lemma DeepIntersection_keys_witness :
  In "b" (map (@name Meet) (properties (DeepIntersection primary secondary))).
Proof.
  apply (proj2 (DeepIntersection_keys [plain "a" int_]
                  [plain "a" string_; plain "b" bool_]) "b").
  right. right. left. reflexivity.
Defined.

Lemma DeepIntersection_appends_witness :
  get_field "b" (properties (DeepIntersection primary secondary))
  = Some (mkField "b" (MShape bool_) false false).
Proof.
  apply (@DeepIntersection_appends [plain "a" int_]
           [plain "a" string_; plain "b" bool_] "b" (plain "b" bool_));
    reflexivity.
Defined.

(** A key that both records have comes out with the type [never],
    whatever the two operands store under it. *)
Theorem DeepIntersection_shared_key : forall fs ds k f d,
  get_field k fs = Some f ->
  get_field k ds = Some d ->
  msub [child k] (DeepIntersection (RecordOf fs) (RecordOf ds)) = Some MNever.
Proof.
  intros fs ds k f d Hf Hd. eapply DeepIntersection_clash; eassumption.
Qed.

Lemma DeepIntersection_shared_key_witness :
  msub [child "a"] (DeepIntersection primary secondary) = Some MNever.
Proof.
  apply (@DeepIntersection_shared_key [plain "a" int_]
           [plain "a" string_; plain "b" bool_] "a" (plain "a" int_) (plain "a" string_));
    reflexivity.
Defined.

(** A required field of [T] whose key [D] lacks: a primitive passes
    through, an array of either kind stays an array of that kind with its
    element intersected with the whole of [D], and a record or callable is
    itself intersected with the whole of [D]. *)
Theorem DeepIntersection_own_key : forall fs ds k f,
  get_field k fs = Some f ->
  optional f = false ->
  has_key k (map (@name Shape) ds) = false ->
  msub [child k] (DeepIntersection (RecordOf fs) (RecordOf ds))
  = Some (match shape f with
          | Leaf _ false => MShape (shape f)
          | ArrayOf ro E => MArrayOf ro (DeepIntersection E (RecordOf ds))
          | X => DeepIntersection X (RecordOf ds)
          end).
Proof.
  intros fs ds k f Hk _ Hd.
  rewrite (@DeepIntersection_own_field fs ds k f Hk Hd).
  destruct (shape f) as [id [|]|[|] E|gs]; reflexivity.
Qed.

Lemma DeepIntersection_own_key_witness :
  msub [child "a"] (DeepIntersection listed Meta)
  = Some (MArrayOf false (DeepIntersection int_ Meta)).
Proof.
  apply (@DeepIntersection_own_key [plain "a" (ArrayOf false int_)]
           [mkField "metadata" string_ true false] "a" (plain "a" (ArrayOf false int_)));
    reflexivity.
Defined.

(** The fields of [D] are added at every level, not only at the top: in a
    record reached through required record fields whose keys [D] lacks, a
    key [k] of [D] that the record lacks resolves to the type [k] has in
    [D]. *)
Theorem DeepIntersection_every_level : forall ks T g ds k d,
  descend (total classify) true (map child ks) T = Some (RecordOf g) ->
  Forall (fun k' => has_key k' (map (@name Shape) ds) = false) ks ->
  get_field k g = None ->
  get_field k ds = Some d ->
  msub (map child ks ++ [child k]) (DeepIntersection T (RecordOf ds))
  = Some (MShape (shape d)).
Proof.
  intros ks T g ds k d Hdesc Hks Hg Hd.
  pose proof (@descend_sub true _ T (RecordOf g) Hdesc) as Hsub.
  rewrite msub_app. erewrite DeepIntersection_descent by eassumption.
  now apply DeepIntersection_gap.
Qed.

Lemma DeepIntersection_every_level_witness :
  msub (map child ["level_1"; "level_2"] ++ [child "metadata"])
       (DeepIntersection
          (RecordOf [plain "level_1" (RecordOf [plain "level_2" (RecordOf [])])]) Meta)
  = Some (MShape string_).
Proof.
  apply (@DeepIntersection_every_level ["level_1"; "level_2"]
           (RecordOf [plain "level_1" (RecordOf [plain "level_2" (RecordOf [])])])
           [] [mkField "metadata" string_ true false] "metadata"
           (mkField "metadata" string_ true false)).
  - reflexivity.
  - repeat constructor.
  - reflexivity.
  - reflexivity.
Defined.

(** ** Further properties: Paths and PathValue *)

Lemma lit_Join : forall k r, lit (k ++ String dot r) = Join (lit k) (lit r).
Proof.
  induction k as [|c k IH]; intros r; [reflexivity|].
  cbn [append]. rewrite !lit_cons, IH. reflexivity.
Qed.

Section Budget.
Variable node : Type.
Variable view : node -> Kind node.

Lemma PathsAt_incl : forall lv T,
  incl (PathsAt view lv T) (PathsAt view (S lv) T).
Proof.
  induction lv as [|lv IH]; intros T; [intros p []|].
  assert (Step : forall K U,
             incl (if is_object view U
                   then K :: map (Join K) (PathsAt view lv U) else [K])
                  (if is_object view U
                   then K :: map (Join K) (PathsAt view (S lv) U) else [K])).
  { intros K U. destruct (is_object view U); [|apply incl_refl].
    apply incl_cons; [now left|].
    apply incl_tl. apply incl_map. apply IH. }
  change (PathsAt view (S (S lv)) T)
    with (match view T with
          | KLeaf _ false => [lit ""]
          | KLeaf _ true => []
          | KArrayOf _ U =>
              if is_object view U
              then [Num] :: map (Join [Num]) (PathsAt view (S lv) U) else [[Num]]
          | KRecordOf fs =>
              flat_map (fun f =>
                          if is_object view (shape f)
                          then lit (name f)
                               :: map (Join (lit (name f))) (PathsAt view (S lv) (shape f))
                          else [lit (name f)]) fs
          end).
  cbn [PathsAt]. destruct (view T) as [id [|]|ro U|fs].
  - apply incl_refl.
  - apply incl_refl.
  - apply Step.
  - intros p Hp. apply in_flat_map in Hp. destruct Hp as [f [Hf Hp]].
    apply in_flat_map. exists f. split; [exact Hf|]. now apply (Step (lit (name f)) (shape f)).
Qed.

Lemma PathsAt_keys : forall T fs,
  view T = KRecordOf fs ->
  PathsAt view 1 T = map (fun f => lit (name f)) fs.
Proof.
  intros T fs V. cbn [PathsAt]. rewrite V. clear V.
  induction fs as [|f fs IH]; [reflexivity|].
  cbn [flat_map]. rewrite IH.
  destruct (is_object view (shape f)); reflexivity.
Qed.
End Budget.

Lemma PathsAt_joins_shape : forall lv T p,
  well_named T = true ->
  In p (PathsAt classify lv T) -> joins p < lv.
Proof.
  induction lv as [|lv IH]; intros T p W H; [contradiction|].
  assert (Step : forall K U q,
             joins K = 0 ->
             well_named U = true ->
             In q (if is_object classify U
                   then K :: map (Join K) (PathsAt classify lv U)
                   else [K]) ->
             joins q < S lv).
  { intros K U q HK WU Hq. destruct (is_object classify U).
    - destruct Hq as [<-|Hq]; [lia|].
      apply in_map_iff in Hq. destruct Hq as [q' [<- Hq']].
      rewrite joins_Join, HK. apply (IH U q' WU) in Hq'. lia.
    - destruct Hq as [<-|[]]. lia. }
  destruct T as [id [|]|ro U|fs]; cbn [PathsAt classify] in H.
  - contradiction.
  - destruct H as [<-|[]]. cbv. lia.
  - apply (Step [Num] U); [reflexivity|exact W|exact H].
  - apply in_flat_map in H. destruct H as [f [Hf Hp]].
    cbn [well_named] in W. apply andb_prop in W. destruct W as [_ W].
    rewrite forallb_forall in W. specialize (W f Hf).
    apply andb_prop in W. destruct W as [Hk WU].
    apply (Step (lit (name f)) (shape f)); [now apply joins_lit|exact WU|exact Hp].
Qed.

(** When no key contains a dot, a member of [Paths<T, D>] has at most
    [D + 1] segments, for every depth literal [D] of [Prev]: the literal [0]
    still lists the keys of [T]. *)
Theorem Paths_segments : forall T D p,
  well_named T = true ->
  D < List.length Prev ->
  In p (Paths classify T D) ->
  segments p <= S D.
Proof.
  intros T D p W _ H. unfold Paths, level in H.
  apply PathsAt_joins_shape in H; [|exact W].
  unfold segments. lia.
Qed.

Lemma Paths_segments_witness : segments (lit "profile.address.city") <= 6.
Proof.
  apply (@Paths_segments User 5 (lit "profile.address.city")).
  - reflexivity.
  - simpl. lia.
  - vm_compute. tauto.
Defined.

(** A larger depth literal loses no path, on any carrier of shapes. *)
Theorem Paths_monotone :
  forall (node : Type) (view : node -> Kind node) (T : node) (D D' : nat),
    D <= D' ->
    D' < List.length Prev ->
    incl (Paths view T D) (Paths view T D').
Proof.
  intros node view T D D' Hle _. unfold Paths, level.
  induction Hle as [|D' _ IH]; [apply incl_refl|].
  eapply incl_tran; [exact IH|]. apply PathsAt_incl.
Qed.

Lemma Paths_monotone_witness :
  incl (Paths Loop tt 1) (Paths Loop tt 4).
Proof.
  apply (@Paths_monotone unit Loop tt 1 4); simpl; lia.
Defined.

(** With the depth literal [0] the paths of a record are exactly its keys,
    in their order, whatever lies below them. *)
Theorem Paths_depth_0 :
  forall (node : Type) (view : node -> Kind node) (T : node) fs,
    view T = KRecordOf fs ->
    Paths view T 0 = map (fun f => lit (name f)) fs.
Proof.
  intros node view T fs V. unfold Paths, level. now apply PathsAt_keys.
Qed.

Lemma Paths_depth_0_witness : Paths classify User 0 = [lit "id"; lit "profile"].
Proof.
  exact (@Paths_depth_0 Shape classify User
           [plain "id" number_;
            plain "profile"
              (RecordOf
                 [plain "name" string_;
                  plain "address" (RecordOf [plain "city" string_; plain "zip" number_])])]
           eq_refl).
Defined.

Lemma height_field : forall fs f,
  In f fs ->
  height (shape f) <= fold_right (fun g m => Nat.max (height (shape g)) m) 0 fs.
Proof.
  induction fs as [|g fs IH]; intros f Hin; [contradiction|].
  destruct Hin as [->|Hin]; simpl.
  - lia.
  - specialize (IH f Hin). lia.
Qed.

Lemma PathsAt_stable : forall T lv,
  height T <= lv ->
  (lv = 0 -> is_object classify T = true) ->
  PathsAt classify lv T = PathsAt classify (S lv) T.
Proof.
  induction T as [id o|ro U IH|fs IH] using Shape_ind; intros lv Hh Ho.
  - destruct lv as [|lv].
    + specialize (Ho eq_refl). unfold is_object in Ho. simpl in Ho. subst o. reflexivity.
    + destruct o; reflexivity.
  - cbn [height] in Hh. destruct lv as [|lv]; [lia|].
    change (PathsAt classify (S lv) (ArrayOf ro U))
      with (if is_object classify U
            then [Num] :: map (Join [Num]) (PathsAt classify lv U) else [[Num]]).
    change (PathsAt classify (S (S lv)) (ArrayOf ro U))
      with (if is_object classify U
            then [Num] :: map (Join [Num]) (PathsAt classify (S lv) U) else [[Num]]).
    destruct (is_object classify U) eqn:O; [|reflexivity].
    rewrite (IH lv); [reflexivity|lia|intros _; reflexivity].
  - cbn [height] in Hh. destruct lv as [|lv]; [lia|].
    change (PathsAt classify (S lv) (RecordOf fs))
      with (flat_map (fun f =>
                        if is_object classify (shape f)
                        then lit (name f) :: map (Join (lit (name f))) (PathsAt classify lv (shape f))
                        else [lit (name f)]) fs).
    change (PathsAt classify (S (S lv)) (RecordOf fs))
      with (flat_map (fun f =>
                        if is_object classify (shape f)
                        then lit (name f)
                             :: map (Join (lit (name f))) (PathsAt classify (S lv) (shape f))
                        else [lit (name f)]) fs).
    rewrite !flat_map_concat_map. f_equal. apply map_ext_in. intros f Hf.
    destruct (is_object classify (shape f)) eqn:O; [|reflexivity].
    rewrite Forall_forall in IH. rewrite (IH f Hf lv).
    + reflexivity.
    + pose proof (height_field fs f Hf). lia.
    + intros _. exact O.
Qed.

(** A depth literal beyond the nesting of a shape changes nothing: once
    [D + 1] reaches the height of [T], every larger literal of [Prev] gives
    the same paths. *)
Theorem Paths_saturates : forall T D D',
  height T <= S D ->
  D <= D' ->
  D' < List.length Prev ->
  Paths classify T D' = Paths classify T D.
Proof.
  intros T D D' Hh Hle _. unfold Paths, level.
  induction Hle as [|D' Hle IH]; [reflexivity|].
  rewrite <- IH. symmetry. apply PathsAt_stable; [lia|discriminate].
Qed.

Lemma Paths_saturates_witness : Paths classify User 5 = Paths classify User 2.
Proof. apply (@Paths_saturates User 2 5); simpl; lia. Defined.

Lemma sub_app : forall r1 r2 T,
  sub (r1 ++ r2) T
  = match sub r1 T with
    | Some X => sub r2 X
    | None => None
    end.
Proof.
  induction r1 as [|[k|] r1 IH]; intros r2 T; cbn [app sub].
  - reflexivity.
  - destruct T as [| |fs]; try reflexivity.
    destruct (get_field k fs); [apply IH|reflexivity].
  - destruct T as [|ro V|]; try reflexivity. apply IH.
Qed.

(** [PathValue] on keys without dots, joined by dots: when the descent
    through the required record fields of those names succeeds, the path
    resolves to what the descent reaches; when a record reached through a
    first part of the keys lacks the next one, the path is [never]. *)
Theorem PathValue_descent : forall ks k T,
  dot_free k = true ->
  forallb dot_free ks = true ->
  (forall U,
      descend (total classify) true (map child (k :: ks)) T = Some U ->
      PathValue classify T (dotted_path k ks) = Some U)
  /\ (forall pre k' post g,
         k :: ks = pre ++ k' :: post ->
         descend (total classify) true (map child pre) T = Some (RecordOf g) ->
         get_field k' g = None ->
         PathValue classify T (dotted_path k ks) = None).
Proof.
  intros ks k T Hk Hks. rewrite PathValue_sub by assumption. split.
  - intros U H. exact (@descend_sub true _ T U H).
  - intros pre k' post g E H Hg. rewrite E, map_app, sub_app.
    rewrite (@descend_sub true _ T (RecordOf g) H).
    cbn [map sub]. now rewrite Hg.
Qed.

Lemma PathValue_descent_witness :
  PathValue classify User "profile.address.zip" = Some number_
  /\ PathValue classify User "profile.street.zip" = None.
Proof.
  split.
  - apply (proj1 (@PathValue_descent ["address"; "zip"] "profile" User eq_refl eq_refl)).
    reflexivity.
  - apply (proj2 (@PathValue_descent ["street"; "zip"] "profile" User eq_refl eq_refl)
             ["profile"] "street" ["zip"]
             [plain "name" string_;
              plain "address" (RecordOf [plain "city" string_; plain "zip" number_])]);
      reflexivity.
Defined.

(** [Paths] is complete for records within its budget, in both compiler
    modes: a descent through at most [D + 1] record fields (required ones
    under the strict compiler) that succeeds is listed in [Paths<T, D>] as
    the keys joined by dots. *)
Theorem Paths_complete : forall strict ks k T U D,
  descend (total classify) strict (map child (k :: ks)) T = Some U ->
  List.length ks <= D ->
  D < List.length Prev ->
  In (lit (dotted_path k ks)) (PathsIn classify strict T D).
Proof.
  intros strict ks k T U D Hsub Hlen _. unfold PathsIn, level.
  assert (Hlv : List.length ks < S D) by lia. clear Hlen.
  revert k T Hsub Hlv. generalize (S D). clear D.
  induction ks as [|k' ks IH]; intros lv k T Hsub Hlv.
  - destruct lv as [|lv]; [simpl in Hlv; lia|].
    cbn [map descend] in Hsub. unfold into, total in Hsub.
    destruct T as [| |fs]; cbn [classify] in Hsub; try discriminate.
    destruct (get_field k fs) as [f|] eqn:E; [|discriminate].
    apply get_field_name in E. destruct E as [<- Hin].
    cbn [PathsAtIn classify dotted_path]. apply in_flat_map. exists f.
    split; [exact Hin|].
    destruct (is_object classify (shape f) && negb (strict && optional f));
      left; reflexivity.
  - destruct lv as [|lv]; [simpl in Hlv; lia|].
    cbn [map descend] in Hsub. unfold into at 1, total in Hsub.
    destruct T as [| |fs]; cbn [classify] in Hsub; try discriminate.
    destruct (get_field k fs) as [f|] eqn:E; [|discriminate].
    destruct (strict && optional f) eqn:O; [discriminate|].
    apply get_field_name in E. destruct E as [<- Hin].
    cbn [PathsAtIn classify dotted_path]. apply in_flat_map. exists f.
    split; [exact Hin|].
    assert (Ob : is_object classify (shape f) = true).
    { unfold into, total in Hsub. destruct (shape f); try discriminate; reflexivity. }
    rewrite Ob, O, lit_Join. cbn [negb andb]. right. apply in_map.
    apply IH; [exact Hsub|]. simpl in Hlv. lia.
Qed.

Lemma Paths_complete_witness :
  In (lit "profile.address.zip") (PathsIn classify true User 5).
Proof.
  apply (@Paths_complete true ["address"; "zip"] "profile" User number_ 5).
  - reflexivity.
  - simpl. lia.
  - simpl. lia.
Defined.

Lemma split_at_first : forall (x : piece) l1 l2 r1 r2,
  ~ In x l1 -> ~ In x l2 ->
  l1 ++ x :: r1 = l2 ++ x :: r2 -> l1 = l2 /\ r1 = r2.
Proof.
  induction l1 as [|a l1 IH]; intros [|b l2] r1 r2 H1 H2 E; simpl in *.
  - injection E as ->. tauto.
  - injection E as <- _. tauto.
  - injection E as -> _. tauto.
  - injection E as -> E. destruct (IH l2 r1 r2) as [-> ->]; tauto.
Qed.

Lemma lit_no_dot : forall k, dot_free k = true -> ~ In (Chr dot) (lit k).
Proof.
  unfold dot_free, lit. intros k H Hin. apply negb_true_iff in H.
  apply in_map_iff in Hin. destruct Hin as [c [E Hc]]. injection E as ->.
  assert (X : existsb (Ascii.eqb dot) (list_ascii_of_string k) = true).
  { apply existsb_exists. exists dot. split; [exact Hc|apply Ascii.eqb_refl]. }
  congruence.
Qed.

Lemma NoDup_Join : forall K L, NoDup L -> NoDup (K :: map (Join K) L).
Proof.
  intros K L HL. constructor.
  - intros Hin. apply in_map_iff in Hin. destruct Hin as [q [E _]].
    unfold Join in E. apply (f_equal (@List.length piece)) in E.
    rewrite length_app in E. simpl in E. lia.
  - induction HL as [|q L Hq _ IH]; simpl; constructor; [|exact IH].
    intros Hin. apply in_map_iff in Hin. destruct Hin as [q' [E Hq']].
    unfold Join in E. apply app_inv_head in E. injection E as ->. contradiction.
Qed.

Lemma blocks_NoDup : forall (block : Field Shape -> list template) fs,
  distinct (map (@name Shape) fs) = true ->
  (forall f, In f fs -> dot_free (name f) = true) ->
  (forall f, In f fs -> NoDup (block f)) ->
  (forall f a, In f fs -> In a (block f) ->
               a = lit (name f) \/ exists q, a = Join (lit (name f)) q) ->
  NoDup (flat_map block fs).
Proof.
  intros block fs. induction fs as [|f fs IH]; intros Hd Hk Hn Hh; simpl.
  - constructor.
  - cbn [map distinct] in Hd. apply andb_prop in Hd. destruct Hd as [Hf Hd].
    apply negb_true_iff in Hf. apply has_key_false in Hf.
    apply NoDup_app.
    + apply Hn. now left.
    + apply IH; try assumption; intros; [apply Hk|apply Hn|eapply Hh]; try (right; eassumption);
        eassumption.
    + intros a Ha Hb. apply in_flat_map in Hb. destruct Hb as [g [Hg Hb]].
      assert (Neq : name f <> name g).
      { intros E. apply Hf. rewrite E. now apply in_map. }
      pose proof (Hk f (or_introl eq_refl)) as Kf.
      pose proof (Hk g (or_intror Hg)) as Kg.
      destruct (Hh f a (or_introl eq_refl) Ha) as [E1|[q1 E1]];
        destruct (Hh g a (or_intror Hg) Hb) as [E2|[q2 E2]]; subst a.
      * apply lit_inj in E2. congruence.
      * apply (lit_no_dot _ Kf). rewrite E2. unfold Join.
        apply in_or_app. right. now left.
      * apply (lit_no_dot _ Kg). rewrite <- E2. unfold Join.
        apply in_or_app. right. now left.
      * unfold Join in E2. apply split_at_first in E2.
        -- destruct E2 as [E2 _]. apply lit_inj in E2. congruence.
        -- now apply lit_no_dot.
        -- now apply lit_no_dot.
Qed.

Lemma PathsAt_NoDup : forall lv T,
  well_named T = true -> NoDup (PathsAt classify lv T).
Proof.
  induction lv as [|lv IH]; intros T W; [constructor|].
  assert (Step : forall K U,
             well_named U = true ->
             NoDup (if is_object classify U
                    then K :: map (Join K) (PathsAt classify lv U) else [K])).
  { intros K U WU. destruct (is_object classify U).
    - apply NoDup_Join. now apply IH.
    - constructor; [intros []|constructor]. }
  destruct T as [id [|]|ro U|fs]; cbn [PathsAt classify].
  - constructor.
  - constructor; [intros []|constructor].
  - now apply Step.
  - cbn [well_named] in W. apply andb_prop in W. destruct W as [Hd W].
    rewrite forallb_forall in W.
    apply blocks_NoDup.
    + exact Hd.
    + intros f Hf. specialize (W f Hf). apply andb_prop in W. tauto.
    + intros f Hf. apply Step. specialize (W f Hf). apply andb_prop in W. tauto.
    + intros f a Hf Ha. destruct (is_object classify (shape f)).
      * destruct Ha as [<-|Ha]; [now left|].
        apply in_map_iff in Ha. destruct Ha as [q [<- _]]. right. now exists q.
      * destruct Ha as [<-|[]]. now left.
Qed.

(** [Paths] lists no path twice when the keys of every record are distinct
    and contain no dot: two different locations never share a path. *)
Theorem Paths_NoDup : forall T D,
  well_named T = true ->
  D < List.length Prev ->
  NoDup (Paths classify T D).
Proof.
  intros T D W _. unfold Paths. now apply PathsAt_NoDup.
Qed.

Lemma Paths_NoDup_witness : NoDup (Paths classify User 5).
Proof. apply (@Paths_NoDup User 5); [reflexivity|simpl; lia]. Defined.

(** The hypothesis on the keys is needed: with a key that contains a dot
    the same path is listed for two locations. *)
Example Paths_dotted_twice :
  ~ NoDup (Paths classify
             (RecordOf [plain "a.b" number_; plain "a" (RecordOf [plain "b" number_])]) 5).
Proof.
  vm_compute. intros H. inversion H as [|x l Hin _]; subst.
  apply Hin. right. left. reflexivity.
Qed.
